(** * Technical indicator engine: a shallow embedding of [indicator_engine.py]

    The development follows the Python module function by function.
    Conventions of the embedding:

    - a [Decimal] is an exact rational ([Q]); the rounding of a sum, a
      product or a quotient to the 28 digits of the context is not
      modelled, they are taken exactly;
    - the price series reach [_atr14] as Decimals, so its arithmetic is
      exact too; its values are [num]s, a rational or one of the three
      special values, because it tests them with [math.isfinite];
    - the volume ratio is computed on binary floats: a quotient is rounded
      to the nearest binary64 number ([binary64]), it overflows to an
      infinity, and an integer too large for a float raises
      [OverflowError];
    - [round(x, 2)] gives the nearest number of hundredths to the value it
      is given; the float nearest to that number is identified with it;
    - a conversion between a Decimal and a float ([float(d)],
      [Decimal(str(x))]) keeps the rational;
    - a value that may be [None] is an [option];
    - a function that may raise returns a [res];
    - [window], [recent] and [batch_size] are counts ([nat]).  *)

From Stdlib Require Import List ZArith QArith Qround Qabs Qminmax Qpower Lia Lqa Bool Arith Sorted.
From Stdlib Require String.
Import ListNotations.

Set Implicit Arguments.

(** ** Exceptions and fallible results *)

Inductive exn : Type :=
| IndexError
| ZeroDivisionError
| StatisticsError
| InvalidOperation
| DivisionByZero
| OverflowError
| MySQLError
| OtherError.

Inductive res (A : Type) : Type :=
| Ok (a : A)
| Raise (e : exn).

Arguments Ok {A} a.
Arguments Raise {A} e.

Definition bind {A B : Type} (m : res A) (k : A -> res B) : res B :=
  match m with
  | Ok a => k a
  | Raise e => Raise e
  end.

Notation "x <- m ;; k" := (bind m (fun x => k))
  (at level 61, m at next level, right associativity).

Definition raises {A : Type} (m : res A) : Prop :=
  exists e, m = Raise e.

(** ** Python slices and sums *)

(** [l[a:b]] for non-negative bounds. *)
Definition slice {A : Type} (a b : nat) (l : list A) : list A :=
  firstn (b - a) (skipn a l).

Definition Qsum (l : list Q) : Q := fold_right Qplus 0 l.

(** The arithmetic mean of a list, as a specification-level notion. *)
Definition Qmean (l : list Q) : Q :=
  Qsum l / inject_Z (Z.of_nat (length l)).

(** ** Decimal arithmetic *)

Definition decimal : Type := Q.

Definition Decimal_of_nat (n : nat) : decimal := inject_Z (Z.of_nat n).

(** [a / b] on Decimals: [0 / 0] signals [InvalidOperation], [a / 0]
    signals [DivisionByZero]. *)
Definition decimal_div (a b : decimal) : res decimal :=
  if Qeq_bool b 0
  then Raise (if Qeq_bool a 0 then InvalidOperation else DivisionByZero)
  else Ok (a / b).

(** [quantize(Decimal('0.01'), rounding=ROUND_HALF_UP)]: the nearest number
    of hundredths, a tie going away from zero. *)
Definition cents_half_up (q : Q) : Z :=
  let x := q * 100 in
  if Qle_bool 0 x
  then Qfloor (x + (1 # 2))
  else Z.opp (Qfloor (- x + (1 # 2))).

Definition quantize_half_up (q : decimal) : decimal :=
  cents_half_up q # 100.

(** [quantize] with the check it makes on its result: a result of more
    than 28 digits signals [InvalidOperation].  The product of a mean price
    and a mean volume can reach that size. *)
Definition decimal_quantize (q : decimal) : res decimal :=
  let c := cents_half_up q in
  if (10 ^ 28 <=? Z.abs c)%Z then Raise InvalidOperation
  else Ok (c # 100).

(** Python's [round(x, 2)]: the nearest number of hundredths, a tie going to
    the even one. *)
Definition cents_half_even (q : Q) : Z :=
  let x := q * 100 in
  let f := Qfloor x in
  let r := x - inject_Z f in
  if Qlt_le_dec r (1 # 2) then f
  else if Qlt_le_dec (1 # 2) r then (f + 1)%Z
  else if Z.even f then f else (f + 1)%Z.

Definition round_half_even (q : Q) : Q := cents_half_even q # 100.

(** What it means for [c] hundredths to be [q] rounded half-up. *)
Definition is_half_up_cents (q : Q) (c : Z) : Prop :=
  (0 <= q -> q * 100 - (1 # 2) < inject_Z c /\ inject_Z c <= q * 100 + (1 # 2)) /\
  (q < 0 -> q * 100 - (1 # 2) <= inject_Z c /\ inject_Z c < q * 100 + (1 # 2)).

(** ** Simple moving averages *)

(** The loop body [if val is not None: total += val]. *)
Definition add_present (total : decimal) (val : option decimal) : decimal :=
  match val with
  | Some v => total + v
  | None => total
  end.

Definition _sma (values : list (option decimal)) (window : nat)
  : res (option decimal) :=
  if (length values <? window)%nat then Ok None
  else
    let total := fold_left add_present (firstn window values) 0 in
    avg <- decimal_div total (Decimal_of_nat window) ;;
    Ok (Some (quantize_half_up avg)).

Definition _sma_prev (values : list (option decimal)) (window : nat)
  : res (option decimal) :=
  if (length values <? window + 1)%nat then Ok None
  else
    let total := fold_left add_present (slice 1 (window + 1) values) 0 in
    avg <- decimal_div total (Decimal_of_nat window) ;;
    Ok (Some (quantize_half_up avg)).

(** The entries of a list that are not [None]. *)
Definition present {A : Type} (l : list (option A)) : list A :=
  flat_map (fun v => match v with Some q => [q] | None => [] end) l.

(** ** ADR20 and AVD20 *)

Definition adr_step (acc : decimal * nat) (hl : option decimal * option decimal)
  : decimal * nat :=
  let '(total_range, count) := acc in
  match hl with
  | (Some h, Some l) => (total_range + (h - l), S count)
  | _ => (total_range, count)
  end.

Definition _adr20 (highs lows : list (option decimal)) : res (option decimal) :=
  if (length highs <? 20)%nat || (length lows <? 20)%nat then Ok None
  else
    let '(total_range, count) :=
      fold_left adr_step (combine (firstn 20 highs) (firstn 20 lows)) (0, 0%nat) in
    if (count <? 20)%nat then Ok None
    else
      avg <- decimal_div total_range (Decimal_of_nat 20) ;;
      Ok (Some (quantize_half_up (avg * 100))).

(** Python's [sum] over integers. *)
Definition Zsum (l : list Z) : Z := fold_left Z.add l 0%Z.

Definition _avd20 (closes : list (option decimal)) (volumes : list Z)
  : res (option decimal) :=
  if (length closes <? 20)%nat || (length volumes <? 20)%nat then Ok None
  else
    let total_close := fold_left add_present (firstn 20 closes) 0 in
    avg_close <- decimal_div total_close (Decimal_of_nat 20) ;;
    let total_volume := Zsum (firstn 20 volumes) in
    avg_volume <- decimal_div (inject_Z total_volume) (Decimal_of_nat 20) ;;
    let dollar_volume := avg_close * avg_volume in
    v <- decimal_quantize dollar_volume ;;
    Ok (Some v).

(** ** Floats *)

Inductive num : Type :=
| Fin (q : Q)
| PInf
| NInf
| NaN.

(** [math.isfinite] *)
Definition isfinite (x : num) : bool :=
  match x with
  | Fin _ => true
  | _ => false
  end.

Definition num_neg (x : num) : num :=
  match x with
  | Fin q => Fin (- q)
  | PInf => NInf
  | NInf => PInf
  | NaN => NaN
  end.

Definition num_add (x y : num) : num :=
  match x, y with
  | Fin a, Fin b => Fin (a + b)
  | NaN, _ | _, NaN => NaN
  | PInf, NInf | NInf, PInf => NaN
  | PInf, _ | _, PInf => PInf
  | NInf, _ | _, NInf => NInf
  end.

Definition num_sub (x y : num) : num := num_add x (num_neg y).

Definition num_abs (x : num) : num :=
  match x with
  | Fin q => Fin (Qabs q)
  | PInf | NInf => PInf
  | NaN => NaN
  end.

(** [x > y]; every comparison with a NaN is false. *)
Definition num_gt (x y : num) : bool :=
  match x, y with
  | NaN, _ | _, NaN => false
  | Fin a, Fin b => negb (Qle_bool a b)
  | PInf, PInf => false
  | PInf, _ => true
  | _, PInf => false
  | NInf, _ => false
  | Fin _, NInf => true
  end.

Definition Qsign (q : Q) : comparison := (0 ?= q)%Q.

Definition num_mul (x y : num) : num :=
  let scaled_inf (q : Q) (pos : bool) : num :=
    match Qsign q with
    | Eq => NaN
    | Lt => if pos then PInf else NInf
    | Gt => if pos then NInf else PInf
    end in
  match x, y with
  | Fin a, Fin b => Fin (a * b)
  | NaN, _ | _, NaN => NaN
  | Fin a, PInf | PInf, Fin a => scaled_inf a true
  | Fin a, NInf | NInf, Fin a => scaled_inf a false
  | PInf, PInf | NInf, NInf => PInf
  | PInf, NInf | NInf, PInf => NInf
  end.

(** True division; a zero divisor raises [ZeroDivisionError]. *)
Definition num_div (x y : num) : res num :=
  match y with
  | Fin b =>
      if Qeq_bool b 0 then Raise ZeroDivisionError
      else
        match x with
        | Fin a => Ok (Fin (a / b))
        | NaN => Ok NaN
        | PInf => Ok (match Qsign b with Gt => NInf | _ => PInf end)
        | NInf => Ok (match Qsign b with Gt => PInf | _ => NInf end)
        end
  | NaN => Ok NaN
  | PInf | NInf =>
      match x with
      | Fin _ => Ok (Fin 0)
      | _ => Ok NaN
      end
  end.

(** [round(x, 2)] on a float. *)
Definition num_round2 (x : num) : num :=
  match x with
  | Fin q => Fin (round_half_even q)
  | other => other
  end.

(** [max(a, b, c)]: the first of the largest, found with [>]. *)
Definition py_max3 (a b c : num) : num :=
  let m := if num_gt b a then b else a in
  if num_gt c m then c else m.

(** [sum(l)]: a left fold starting at the integer 0. *)
Definition py_sum (l : list num) : num := fold_left num_add l (Fin 0).

(** ** Indexing and loops *)

Definition index {A : Type} (l : list A) (i : nat) : res A :=
  match nth_error l i with
  | Some x => Ok x
  | None => Raise IndexError
  end.

(** [range(a, b)] *)
Definition range (a b : nat) : list nat := seq a (b - a).

(** [for x in xs: s = body(s, x)] with a body that may raise. *)
Fixpoint for_each {A S : Type} (xs : list A) (body : S -> A -> res S) (s : S)
  : res S :=
  match xs with
  | [] => Ok s
  | x :: xs' => s' <- body s x ;; for_each xs' body s'
  end.

(** ** ATR14 *)

Definition true_range (h l prev_close : num) : num :=
  py_max3 (num_sub h l)
          (num_abs (num_sub h prev_close))
          (num_abs (num_sub l prev_close)).

(** One turn of the True Range loop at index [i]. *)
Definition tr_body (H L C : list num) (TR : list num) (i : nat)
  : res (list num) :=
  h <- index H i ;;
  l <- index L i ;;
  pc <- index C (i - 1) ;;
  let tr := true_range h l pc in
  Ok (if isfinite tr then TR ++ [tr] else TR).

(** One turn of Wilder's smoothing at index [i]. *)
Definition wilder_body (TR : list num) (atr : num) (i : nat) : res num :=
  tri <- index TR i ;;
  num_div (num_add (num_mul (Fin 13) atr) tri) (Fin 14).

Definition _atr14 (highs lows closes : list num) : res (option num) :=
  let H := rev highs in
  let L := rev lows in
  let C := rev closes in
  let n := Nat.min (length H) (Nat.min (length L) (length C)) in
  if (n <? 15)%nat then Ok None
  else
    TR <- for_each (range 1 n) (tr_body H L C) [] ;;
    if (length TR <? 14)%nat then Ok None
    else
      atr0 <- num_div (py_sum (firstn 14 TR)) (Fin 14) ;;
      atr <- for_each (range 14 (length TR)) (wilder_body TR) atr0 ;;
      Ok (Some (num_round2 atr)).

(** ** Binary floating point *)

(** The nearest integer, a tie going to the even one. *)
Definition Qround_even (x : Q) : Z :=
  let f := Qfloor x in
  let r := x - inject_Z f in
  if Qlt_le_dec r (1 # 2) then f
  else if Qlt_le_dec (1 # 2) r then (f + 1)%Z
  else if Z.even f then f else (f + 1)%Z.

(** The binary exponent [e] of a positive rational:
    [2 ^ e <= a < 2 ^ (e + 1)]. *)
Definition binade (a : Q) : Z :=
  let e := (Z.log2 (Qnum a) - Z.log2 (Zpos (Qden a)))%Z in
  if Qle_bool (2 ^ e) a then e else (e - 1)%Z.

(** The nearest binary64 magnitude to a positive rational: 53 significant
    bits, a tie going to the even significand; below [2 ^ -1022] the
    spacing stays [2 ^ -1074]. *)
Definition binary64_abs (a : Q) : Q :=
  let e := Z.max (binade a) (-1022) in
  let ulp := 2 ^ (e - 52) in
  inject_Z (Qround_even (a / ulp)) * ulp.

(** Rounding to binary64: a magnitude that rounds to [2 ^ 1024] or more
    becomes an infinity. *)
Definition binary64 (q : Q) : num :=
  if Qeq_bool q 0 then Fin 0
  else
    let v := binary64_abs (Qabs q) in
    if Qle_bool (2 ^ 1024) v then (if Qle_bool 0 q then PInf else NInf)
    else Fin (if Qle_bool 0 q then v else - v).

(** A Python number that is an [int] or a [float]. *)
Inductive pynum : Type :=
| PyInt (z : Z)
| PyFloat (x : num).

(** [float(z)]: the nearest float, and an integer too large for one
    raises. *)
Definition float_of_int (z : Z) : res num :=
  match binary64 (inject_Z z) with
  | Fin v => Ok (Fin v)
  | _ => Raise OverflowError
  end.

(** [a / b] on two integers: the quotient correctly rounded; it raises
    when the result is too large for a float. *)
Definition int_truediv (a b : Z) : res num :=
  if (b =? 0)%Z then Raise ZeroDivisionError
  else
    match binary64 (inject_Z a / inject_Z b) with
    | Fin v => Ok (Fin v)
    | _ => Raise OverflowError
    end.

(** [x / y] on two floats: the quotient rounded, an overflow gives an
    infinity. *)
Definition float_truediv (x y : num) : res num :=
  q <- num_div x y ;;
  Ok (match q with
      | Fin v => binary64 v
      | other => other
      end).

(** [a / b] for an integer [a]: with a float [b], [a] is converted first. *)
Definition py_truediv (a : Z) (b : pynum) : res num :=
  match b with
  | PyInt z => int_truediv a z
  | PyFloat y => x <- float_of_int a ;; float_truediv x y
  end.

(** [b == 0] *)
Definition py_is_zero (b : pynum) : bool :=
  match b with
  | PyInt z => (z =? 0)%Z
  | PyFloat (Fin q) => Qeq_bool q 0
  | PyFloat _ => false
  end.

(** ** Volume ratio *)

(** [statistics.mean] over integers: the sum is exact; the mean is an [int]
    when the count divides the sum and the float nearest to the exact
    quotient otherwise.  An empty sample raises. *)
Definition statistics_mean (data : list Z) : res pynum :=
  match data with
  | [] => Raise StatisticsError
  | _ =>
      let total := Zsum data in
      let n := Z.of_nat (length data) in
      if (total mod n =? 0)%Z then Ok (PyInt (total / n))
      else x <- int_truediv total n ;; Ok (PyFloat x)
  end.

Definition _volume_ratio (volumes : list Z) (recent window : nat)
  : res (option num) :=
  if (length volumes <? Nat.max recent window)%nat then Ok None
  else
    let recent_sum := Zsum (firstn recent volumes) in
    avg_vol <- statistics_mean (firstn window volumes) ;;
    if py_is_zero avg_vol then Ok None
    else
      ratio <- py_truediv recent_sum avg_vol ;;
      Ok (Some (num_round2 ratio)).

(** ** Price bars *)

Definition date : Type := Z.
Definition symbol : Type := String.string.

(** A row as the cursor fetches it: every column may be NULL. *)
Record sql_row : Type := SqlRow {
  sql_date : date;
  sql_open : option decimal;
  sql_high : option decimal;
  sql_low : option decimal;
  sql_close : option decimal;
  sql_volume : option Z
}.

(** A row as [get_price_history] returns it: prices as fetched, the volume an
    integer. *)
Record row : Type := Row {
  r_date : date;
  r_open : option decimal;
  r_high : option decimal;
  r_low : option decimal;
  r_close : option decimal;
  r_volume : Z
}.

(** [int(row[5]) if row[5] is not None else 0] and the other columns kept. *)
Definition convert_row (r : sql_row) : row :=
  Row (sql_date r) (sql_open r) (sql_high r) (sql_low r) (sql_close r)
      (match sql_volume r with Some v => v | None => 0%Z end).

(** Truth value of a Decimal-or-None and of an integer. *)
Definition truthy (v : option decimal) : bool :=
  match v with
  | Some q => negb (Qeq_bool q 0)
  | None => false
  end.

Definition truthy_int (v : Z) : bool := negb (Z.eqb v 0).

(** [[r[k] for r in rows if r[k]]] for a price column [k]. *)
Definition price_series (col : row -> option decimal) (rows : list row)
  : list decimal :=
  present (filter truthy (map col rows)).

(** [[r[5] for r in rows if r[5]]] *)
Definition volume_series (rows : list row) : list Z :=
  filter truthy_int (map r_volume rows).

(** ** Rolling highs *)

(** One turn of the scan of [find_max_close]. *)
Definition max_close_step (acc : option decimal * option date) (r : row)
  : option decimal * option date :=
  let '(max_close, max_date) := acc in
  match r_close r with
  | Some close =>
      if truthy (Some close) &&
         match max_close with
         | None => true
         | Some m => negb (Qle_bool close m)
         end
      then (Some close, Some (r_date r))
      else (max_close, max_date)
  | None => (max_close, max_date)
  end.

Definition find_max_close (data : list row) : option num * option date :=
  let '(max_close, max_date) := fold_left max_close_step data (None, None) in
  match max_close with
  | Some m =>
      if truthy (Some m) then (Some (num_round2 (Fin m)), max_date)
      else (None, None)
  | None => (None, None)
  end.

(** The bars on or after [target_date - timedelta(days=lookback)]. *)
Definition since (target_date : date) (lookback : Z) (rows : list row)
  : list row :=
  filter (fun r => (target_date - lookback <=? r_date r)%Z) rows.

(** The rolling high over a calendar lookback, on chronological bars. *)
Definition rolling_high (lookback : Z) (target_date : date) (rows : list row)
  : option num * option date :=
  find_max_close (since target_date lookback rows).

(** ** The indicator record *)

Record indicator_record : Type := IndicatorRecord {
  ind_symbol : symbol;
  ind_date : date;
  sma5 : option decimal;
  sma10 : option decimal;
  sma20 : option decimal;
  sma50 : option decimal;
  sma100 : option decimal;
  sma200 : option decimal;
  sma5s1 : option decimal;
  sma10s1 : option decimal;
  sma20s1 : option decimal;
  sma50s1 : option decimal;
  sma100s1 : option decimal;
  sma200s1 : option decimal;
  adr20 : option decimal;
  avd20 : option decimal;
  atr14 : option num;
  a130 : option num;
  a260 : option num;
  a390 : option num;
  ftwh : option num;
  ftwh_date : option date;
  tswh : option num;
  tswh_date : option date
}.

(** ** Code that talks to the database: state and exceptions *)

Definition M (St A : Type) : Type := St -> res A * St.

Definition ret {St A : Type} (a : A) : M St A := fun s => (Ok a, s).

Definition bindM {St A B : Type} (m : M St A) (k : A -> M St B) : M St B :=
  fun s =>
    match m s with
    | (Ok a, s') => k a s'
    | (Raise e, s') => (Raise e, s')
    end.

Notation "x <~ m ;; k" := (bindM m (fun x => k))
  (at level 61, m at next level, right associativity).

(** A pure computation that may raise. *)
Definition lift {St A : Type} (r : res A) : M St A := fun s => (r, s).

(** [try: m except Error: return default], catching the connector's errors
    only. *)
Definition except_mysql {St A : Type} (m : M St A) (default : A) : M St A :=
  fun s =>
    match m s with
    | (Raise MySQLError, s') => (Ok default, s')
    | other => other
    end.

(** [try: m except Exception: return default] *)
Definition except_any {St A : Type} (m : M St A) (default : A) : M St A :=
  fun s =>
    match m s with
    | (Raise _, s') => (Ok default, s')
    | other => other
    end.

(** [for x in xs: s = body(s, x)] in the monad. *)
Fixpoint for_eachM {St A S : Type} (xs : list A) (body : S -> A -> M St S)
  (s : S) : M St S :=
  match xs with
  | [] => ret s
  | x :: xs' => s' <~ body s x ;; for_eachM xs' body s'
  end.

(** ** The database manager and the engine over it

    The connector is a parameter: [W] is the state of the price store as the
    queries see it, [Sink] the state of the indicator table as the upsert
    sees it.  The queries read [stockdatas] and the upsert writes
    [stockindicators], so the reading methods run on [W] and the writing
    method on [Sink]; the driver runs on both. *)

Section Engine.

Variables W Sink : Type.

(** [SELECT MAX(date) FROM stockdatas], first column of the fetched row. *)
Variable sql_max_date : W -> res (option date) * W.

(** [SELECT DISTINCT symbol ... ORDER BY symbol] *)
Variable sql_symbols : W -> res (list symbol) * W.

(** [SELECT ... WHERE symbol = %s ORDER BY date DESC LIMIT %s] *)
Variable sql_history : symbol -> nat -> W -> res (list sql_row) * W.

(** [executemany] of the indicator upsert, giving [cursor.rowcount]. *)
Variable sql_upsert : list indicator_record -> Sink -> res Z * Sink.

Definition get_latest_date : M W (option date) :=
  except_mysql sql_max_date None.

Definition get_all_symbols : M W (list symbol) :=
  except_mysql sql_symbols [].

Definition get_price_history (sym : symbol) (days : nat) : M W (list row) :=
  except_mysql
    (rows <~ sql_history sym days ;;
     ret (map convert_row rows))
    [].

Definition batch_insert_indicators (data : list indicator_record)
  : M Sink Z :=
  match data with
  | [] => ret 0%Z
  | _ => except_mysql (sql_upsert data) 0%Z
  end.

Definition _calculate_highs (sym : symbol) (target_date : date)
  : M W (option num * option date * option num * option date) :=
  rows <~ get_price_history sym 420 ;;
  match rows with
  | [] => ret (None, None, None, None)
  | _ =>
      let rows := rev rows in
      let '(ftwh, ftwh_date) := rolling_high 365 target_date rows in
      let '(tswh, tswh_date) := rolling_high 182 target_date rows in
      ret (ftwh, ftwh_date, tswh, tswh_date)
  end.

Definition is_empty {A : Type} (l : list A) : bool :=
  match l with
  | [] => true
  | _ => false
  end.

(** The body of [calculate_for_symbol] under its [try]. *)
Definition calculate_body (sym : symbol) (target_date : date)
  : M W (option indicator_record) :=
  rows <~ get_price_history sym 250 ;;
  if (length rows <? 200)%nat then ret None
  else
    let closes := price_series r_close rows in
    let opens := price_series r_open rows in
    let highs := price_series r_high rows in
    let lows := price_series r_low rows in
    let volumes := volume_series rows in
    if is_empty closes || is_empty highs || is_empty lows || is_empty volumes
    then ret None
    else
      let closes' := map Some closes in
      v_sma5 <~ lift (_sma closes' 5) ;;
      v_sma10 <~ lift (_sma closes' 10) ;;
      v_sma20 <~ lift (_sma closes' 20) ;;
      v_sma50 <~ lift (_sma closes' 50) ;;
      v_sma100 <~ lift (_sma closes' 100) ;;
      v_sma200 <~ lift (_sma closes' 200) ;;
      v_sma5s1 <~ lift (_sma_prev closes' 5) ;;
      v_sma10s1 <~ lift (_sma_prev closes' 10) ;;
      v_sma20s1 <~ lift (_sma_prev closes' 20) ;;
      v_sma50s1 <~ lift (_sma_prev closes' 50) ;;
      v_sma100s1 <~ lift (_sma_prev closes' 100) ;;
      v_sma200s1 <~ lift (_sma_prev closes' 200) ;;
      v_adr20 <~ lift (_adr20 (map Some highs) (map Some lows)) ;;
      v_avd20 <~ lift (_avd20 closes' volumes) ;;
      v_atr14 <~ lift (_atr14 (map Fin highs) (map Fin lows) (map Fin closes)) ;;
      v_a130 <~ lift (_volume_ratio volumes 1 30) ;;
      v_a260 <~ lift (_volume_ratio volumes 2 60) ;;
      v_a390 <~ lift (_volume_ratio volumes 3 90) ;;
      hs <~ _calculate_highs sym target_date ;;
      let '(v_ftwh, v_ftwh_date, v_tswh, v_tswh_date) := hs in
      ret (Some (IndicatorRecord sym target_date
                   v_sma5 v_sma10 v_sma20 v_sma50 v_sma100 v_sma200
                   v_sma5s1 v_sma10s1 v_sma20s1 v_sma50s1 v_sma100s1 v_sma200s1
                   v_adr20 v_avd20 v_atr14
                   v_a130 v_a260 v_a390
                   v_ftwh v_ftwh_date v_tswh v_tswh_date)).

Definition calculate_for_symbol (sym : symbol) (target_date : date)
  : M W (option indicator_record) :=
  except_any (calculate_body sym target_date) None.

(** The driver sees both components. *)
Definition state : Type := (W * Sink)%type.

Definition on_store {A : Type} (q : M W A) : M state A :=
  fun s => let '(r, w') := q (fst s) in (r, (w', snd s)).

Definition on_sink {A : Type} (q : M Sink A) : M state A :=
  fun s => let '(r, k') := q (snd s) in (r, (fst s, k')).

(** One turn of the loop over the symbols; the accumulator is the buffer
    and the running total. *)
Definition driver_step (batch_size : nat) (target_date : date)
  (acc : list indicator_record * Z) (sym : symbol)
  : M state (list indicator_record * Z) :=
  let '(batch, total_written) := acc in
  result <~ on_store (calculate_for_symbol sym target_date) ;;
  let batch :=
    match result with
    | Some r => batch ++ [r]
    | None => batch
    end in
  if (batch_size <=? length batch)%nat
  then
    written <~ on_sink (batch_insert_indicators batch) ;;
    ret ([], (total_written + written)%Z)
  else ret (batch, total_written).

(** [if batch: ...] after the loop. *)
Definition write_remaining (acc : list indicator_record * Z) : M state Z :=
  let '(batch, total_written) := acc in
  match batch with
  | [] => ret total_written
  | _ =>
      written <~ on_sink (batch_insert_indicators batch) ;;
      ret (total_written + written)%Z
  end.

Definition process_body (batch_size : nat) : M state Z :=
  target <~ on_store get_latest_date ;;
  match target with
  | None => ret 0%Z
  | Some target_date =>
      symbols <~ on_store get_all_symbols ;;
      match symbols with
      | [] => ret 0%Z
      | _ =>
          acc <~ for_eachM symbols (driver_step batch_size target_date)
                   ([], 0%Z) ;;
          write_remaining acc
      end
  end.

Definition process_all_symbols (batch_size : nat) : M state Z :=
  except_any (process_body batch_size) 0%Z.

(** *** The driver as specified *)

(** The records of the symbols that yield one, in the order of the
    symbols. *)
Fixpoint collect_records (symbols : list symbol) (target_date : date)
  : M W (list indicator_record) :=
  match symbols with
  | [] => ret []
  | sym :: rest =>
      result <~ calculate_for_symbol sym target_date ;;
      recs <~ collect_records rest target_date ;;
      ret (match result with
           | Some r => r :: recs
           | None => recs
           end)
  end.

(** Each batch written in turn; the total of the reported row counts. *)
Fixpoint flush_batches (batches : list (list indicator_record)) : M Sink Z :=
  match batches with
  | [] => ret 0%Z
  | b :: rest =>
      written <~ batch_insert_indicators b ;;
      more <~ flush_batches rest ;;
      ret (written + more)%Z
  end.

End Engine.

(** A list cut into consecutive batches of [n] elements, the last one
    holding the remainder. *)
Fixpoint chunks_fuel {A : Type} (fuel n : nat) (l : list A) : list (list A) :=
  match fuel with
  | O => []
  | S fuel' =>
      match l with
      | [] => []
      | _ :: _ => firstn n l :: chunks_fuel fuel' n (skipn n l)
      end
  end.

Definition chunks {A : Type} (n : nat) (l : list A) : list (list A) :=
  chunks_fuel (length l) n l.

(** ** Specification-level notions *)

(** The series with every [None] replaced by a zero. *)
Definition none_as_zero (values : list (option decimal))
  : list (option decimal) :=
  map (fun v => match v with Some q => Some q | None => Some 0 end) values.

(** A column with exactly its NULL entries dropped. *)
Definition drop_nulls {R A : Type} (col : R -> option A) (rows : list R)
  : list A :=
  present (map col rows).

Definition nonzero (q : decimal) : bool := negb (Qeq_bool q 0).

(** Two bars, the first with a close of zero. *)
Definition zero_close_bars : list row :=
  [ Row 20%Z (Some 1) (Some 1) (Some 1) (Some 0) 5%Z;
    Row 19%Z (Some 7) (Some 8) (Some 6) (Some 7) 9%Z ].


(** A bar of the lookback window. *)
Definition in_window (target_date : date) (lookback : Z) (rows : list row)
  (r : row) : Prop :=
  In r rows /\ (target_date - lookback <= r_date r)%Z.

(** The True Range of each day from the second on, over chronological
    series: the day's high and low against the close of the day before. *)
Fixpoint ranges_from {A : Type} (tr : A -> A -> A -> A) (prev_close : A)
  (H L C : list A) : list A :=
  match H, L, C with
  | h :: H', l :: L', c :: C' => tr h l prev_close :: ranges_from tr c H' L' C'
  | _, _, _ => []
  end.

Definition ranges {A : Type} (tr : A -> A -> A -> A) (H L C : list A)
  : list A :=
  match H, L, C with
  | _ :: H', _ :: L', c0 :: C' => ranges_from tr c0 H' L' C'
  | _, _, _ => []
  end.

(** max(high - low, |high - prevClose|, |low - prevClose|) on rationals. *)
Definition Qtrue_range (h l prev_close : Q) : Q :=
  Qmax (Qmax (h - l) (Qabs (h - prev_close))) (Qabs (l - prev_close)).

(** One step of Wilder's smoothing. *)
Definition smooth (atr tr : Q) : Q := (13 * atr + tr) / 14.

(** The seed, the mean of the first 14 values, smoothed by each later value
    in turn. *)
Definition wilder (trs : list Q) : Q :=
  fold_left smooth (skipn 14 trs) (Qmean (firstn 14 trs)).

(** ATR14 as specified, on finite most-recent-first series. *)
Definition atr14_spec (highs lows closes : list Q) : Q :=
  round_half_even
    (wilder (ranges Qtrue_range (rev highs) (rev lows) (rev closes))).

(** The finite values of a list of floats, in order. *)
Definition finite_values (l : list num) : list Q :=
  present (map (fun x => match x with Fin q => Some q | _ => None end) l).





(** [x] is [q] up to the relative error [u]. *)
Definition near (u x q : Q) : Prop := Qabs (x - q) <= Qabs q * u.

(** ** Sample data *)

(** Three closes, most recent first. *)
Definition three_closes : list decimal := [1; 2; 4].

(** A window with a [None] in it. *)
Definition holed_closes : list (option decimal) := [Some 3; None; Some 5].

Definition three_volumes : list Z := [10; 20; 30]%Z.

(** Three volumes, the last beyond any traded volume. *)
Definition huge_volumes : list Z := [0; 1; 10 ^ 308]%Z.

(** Sixteen flat bars, most recent first. *)
Definition flat_highs : list Q := repeat 2 16.
Definition flat_lows : list Q := repeat 1 16.
Definition flat_closes : list Q := repeat 1 16.



(** A store that logs its history queries and holds [n] equal bars for
    every symbol. *)
Definition flat_bar : sql_row :=
  SqlRow 1%Z (Some 100) (Some 101) (Some 99) (Some 100) (Some 1000%Z).

Definition logged_history (n : nat) (sym : symbol) (days : nat)
  (log : list (symbol * nat)) : res (list sql_row) * list (symbol * nat) :=
  (Ok (repeat flat_bar (Nat.min n days)), log ++ [(sym, days)]).

Definition fixed_date (log : list (symbol * nat))
  : res (option date) * list (symbol * nat) :=
  (Ok (Some 1%Z), log).

Module Tickers.
Import String.
Definition AAA : symbol := "AAA"%string.
Definition BBB : symbol := "BBB"%string.
Definition CCC : symbol := "CCC"%string.
End Tickers.

Definition three_symbols (log : list (symbol * nat))
  : res (list symbol) * list (symbol * nat) :=
  (Ok [Tickers.AAA; Tickers.BBB; Tickers.CCC], log).

(** A sink that logs the batches it is given and reports their sizes. *)
Definition logged_upsert (data : list indicator_record)
  (written : list (list indicator_record))
  : res Z * list (list indicator_record) :=
  (Ok (Z.of_nat (length data)), written ++ [data]).

(** Sixteen bars, most recent first, whose range widens day by day. *)
Definition widening_highs : list Q :=
  map (fun i => inject_Z (Z.of_nat i) + 10) (seq 1 16).
Definition widening_lows : list Q := repeat 5 16.
Definition widening_closes : list Q := repeat 7 16.

(** ** Notions for the further properties *)

(** A high-low pair with both values present, and its range. *)
Definition both_present (hl : option decimal * option decimal) : bool :=
  match hl with
  | (Some _, Some _) => true
  | _ => false
  end.

Definition pair_range (hl : option decimal * option decimal) : Q :=
  match hl with
  | (Some h, Some l) => h - l
  | _ => 0
  end.

(** The ranges high - low of aligned series. *)
Definition day_ranges (highs lows : list Q) : list Q :=
  map (fun hl => fst hl - snd hl) (combine highs lows).


(** What the scan of [find_max_close] knows after the bars [seen]: either no
    close that counts has been met, or the running maximum is the close of
    a bar met, with its date, and no close that counts exceeds it. *)
Definition scan_inv (seen : list row) (acc : option decimal * option date)
  : Prop :=
  match acc with
  | (None, md) =>
      md = None /\ forall r, In r seen -> truthy (r_close r) = false
  | (Some m, md) =>
      truthy (Some m) = true /\
      (exists b, In b seen /\ r_close b = Some m /\ md = Some (r_date b)) /\
      forall r c, In r seen -> r_close r = Some c ->
                  truthy (Some c) = true -> c <= m
  end.

(** A float that is not negative: a rational that is not, or the positive
    infinity. *)
Definition not_negative (x : num) : Prop :=
  match x with
  | Fin q => 0 <= q
  | PInf => True
  | NInf | NaN => False
  end.

(** ** Sample data for the further properties *)

Definition flat_quotes_highs : list Q := repeat 101 20.
Definition flat_quotes_lows : list Q := repeat 99 20.
Definition flat_quotes_closes : list (option decimal) := repeat (Some 100) 20.
Definition flat_quotes_volumes : list Z := repeat 1000%Z 20.
Definition equal_volumes : list Z := [5; 5; 5]%Z.

(** A record with nothing in it. *)
Definition empty_record : indicator_record :=
  IndicatorRecord Tickers.AAA 0%Z
    None None None None None None
    None None None None None None
    None None None
    None None None
    None None None None.

(** The record of a symbol with 200 flat bars. *)
Definition sample_record : indicator_record :=
  Eval vm_compute in
    match fst (calculate_for_symbol (logged_history 200) Tickers.AAA 1%Z []) with
    | Ok (Some r) => r
    | _ => empty_record
    end.

(** A store without any bar: the date query gives NULL. *)
Definition no_date (log : list (symbol * nat))
  : res (option date) * list (symbol * nat) :=
  (Ok None, log).

(** A sink whose every write fails. *)
Definition failing_upsert (data : list indicator_record)
  (written : list (list indicator_record))
  : res Z * list (list indicator_record) :=
  (Raise MySQLError, written).



(** * Properties *)

(** ** Rounding *)

Lemma cents_half_up_comp (q q' : Q) :
  q == q' -> cents_half_up q = cents_half_up q'.
Proof.
  intros E. unfold cents_half_up. cbv zeta.
  assert (Ex : q * 100 == q' * 100) by (rewrite E; reflexivity).
  rewrite (Qleb_comp 0 0 (Qeq_refl 0) _ _ Ex).
  destruct (Qle_bool 0 (q' * 100)).
  - apply Qfloor_comp. rewrite Ex. reflexivity.
  - f_equal. apply Qfloor_comp. rewrite Ex. reflexivity.
Qed.

Lemma inject_Z_succ (z : Z) : inject_Z (z + 1) == inject_Z z + 1.
Proof. rewrite inject_Z_plus. reflexivity. Qed.

Lemma cents_half_up_spec (q : Q) : is_half_up_cents q (cents_half_up q).
Proof.
  unfold is_half_up_cents, cents_half_up. cbv zeta.
  split; intros Hq.
  - assert (Hb : Qle_bool 0 (q * 100) = true) by (apply Qle_bool_iff; lra).
    rewrite Hb.
    pose proof (Qfloor_le (q * 100 + (1 # 2))) as Hlo.
    pose proof (Qlt_floor (q * 100 + (1 # 2))) as Hhi.
    rewrite inject_Z_succ in Hhi. split; lra.
  - assert (Hb : Qle_bool 0 (q * 100) = false).
    { destruct (Qle_bool 0 (q * 100)) eqn:E; [|reflexivity].
      apply Qle_bool_iff in E. lra. }
    rewrite Hb.
    pose proof (Qfloor_le (- (q * 100) + (1 # 2))) as Hlo.
    pose proof (Qlt_floor (- (q * 100) + (1 # 2))) as Hhi.
    rewrite inject_Z_succ in Hhi. rewrite inject_Z_opp. split; lra.
Qed.

Lemma is_half_up_cents_unique (q : Q) (c c' : Z) :
  is_half_up_cents q c -> is_half_up_cents q c' -> c = c'.
Proof.
  intros [Hp Hn] [Hp' Hn'].
  assert (Hlt : forall a b : Z, inject_Z a < inject_Z b + 1 -> (a <= b)%Z).
  { intros a b H. rewrite <- inject_Z_succ in H. rewrite <- Zlt_Qlt in H. lia. }
  destruct (Qlt_le_dec q 0) as [Hq | Hq].
  - destruct (Hn Hq), (Hn' Hq).
    apply Z.le_antisymm; apply Hlt; lra.
  - destruct (Hp Hq), (Hp' Hq).
    apply Z.le_antisymm; apply Hlt; lra.
Qed.

(** ** Sums over a window *)

Lemma fold_add_present_some (l : list decimal) (a : decimal) :
  fold_left add_present (map Some l) a == a + Qsum l.
Proof.
  revert a. induction l as [|x l IH]; intros a; simpl.
  - lra.
  - rewrite IH. lra.
Qed.

Lemma fold_add_present (l : list (option decimal)) (a : decimal) :
  fold_left add_present l a == a + Qsum (present l).
Proof.
  revert a. induction l as [|[x|] l IH]; intros a; simpl.
  - lra.
  - rewrite IH. lra.
  - apply IH.
Qed.

Lemma Decimal_of_nat_nonzero (w : nat) :
  (1 <= w)%nat -> Qeq_bool (Decimal_of_nat w) 0 = false.
Proof.
  intros Hw. destruct (Qeq_bool (Decimal_of_nat w) 0) eqn:E; [|reflexivity].
  apply Qeq_bool_eq in E. unfold Decimal_of_nat in E.
  unfold Qeq in E. simpl in E. lia.
Qed.

Lemma decimal_div_ok (a : decimal) (w : nat) :
  (1 <= w)%nat -> decimal_div a (Decimal_of_nat w) = Ok (a / Decimal_of_nat w).
Proof.
  intros Hw. unfold decimal_div. rewrite Decimal_of_nat_nonzero by assumption.
  reflexivity.
Qed.

Lemma quantize_half_up_comp (q q' : Q) :
  q == q' -> quantize_half_up q = quantize_half_up q'.
Proof.
  intros E. unfold quantize_half_up. rewrite (cents_half_up_comp E). reflexivity.
Qed.

(** The value [_sma] gives on a long enough list: the sum of the window's
    entries that are not [None], over the window size. *)
Lemma sma_value (values : list (option decimal)) (w : nat) :
  (1 <= w <= length values)%nat ->
  _sma values w =
  Ok (Some (quantize_half_up
              (Qsum (present (firstn w values)) / Decimal_of_nat w))).
Proof.
  intros [Hw Hlen]. unfold _sma.
  assert (Hlt : (length values <? w)%nat = false) by (apply Nat.ltb_ge; lia).
  rewrite Hlt. cbv zeta. rewrite decimal_div_ok by assumption. simpl.
  do 2 f_equal. apply quantize_half_up_comp.
  rewrite fold_add_present. field.
  intros E. apply Qeq_bool_iff in E.
  rewrite Decimal_of_nat_nonzero in E by assumption. discriminate.
Qed.

Lemma sma_short (values : list (option decimal)) (w : nat) :
  (length values < w)%nat -> _sma values w = Ok None.
Proof.
  intros Hlen. unfold _sma.
  assert (Hlt : (length values <? w)%nat = true) by (apply Nat.ltb_lt; lia).
  rewrite Hlt. reflexivity.
Qed.

Lemma present_map_some (l : list decimal) : present (map Some l) = l.
Proof.
  induction l as [|x l IH]; [reflexivity|].
  change (present (map Some (x :: l))) with (x :: present (map Some l)).
  rewrite IH. reflexivity.
Qed.

(** C3: on a series of at least [w] closes, [_sma] is the arithmetic mean of
    the first [w] of them rounded half-up to the hundredth; on a shorter
    series it is absent. *)
Theorem sma_rounded_mean (S : list decimal) (w : nat) :
  ((1 <= w <= length S)%nat ->
   exists c : Z,
     is_half_up_cents (Qmean (firstn w S)) c /\
     _sma (map Some S) w = Ok (Some (c # 100))) /\
  ((length S < w)%nat -> _sma (map Some S) w = Ok None).
Proof.
  split.
  - intros [Hw Hlen].
    exists (cents_half_up (Qmean (firstn w S))). split.
    + apply cents_half_up_spec.
    + rewrite sma_value by (rewrite length_map; lia).
      rewrite firstn_map, present_map_some.
      unfold Qmean. rewrite firstn_length_le by assumption.
      reflexivity.
  - intros Hlen. apply sma_short. rewrite length_map. assumption.
Qed.

(** ** The previous-day average *)

Lemma skipn_cons_nth {A : Type} (d : A) (l : list A) (a : nat) :
  (a < length l)%nat -> skipn a l = nth a l d :: skipn (S a) l.
Proof.
  revert a. induction l as [|x l IH]; intros a Ha; simpl in Ha; [lia|].
  destruct a as [|a]; [reflexivity|].
  change (skipn (S a) (x :: l)) with (skipn a l).
  change (nth (S a) (x :: l) d) with (nth a l d).
  change (skipn (S (S a)) (x :: l)) with (skipn (S a) l).
  apply IH. lia.
Qed.

(** A slice holds the values at its offsets. *)
Lemma slice_offsets {A : Type} (d : A) (l : list A) (a n : nat) :
  (a + n <= length l)%nat ->
  slice a (a + n) l = map (fun i => nth i l d) (seq a n).
Proof.
  unfold slice. replace (a + n - a)%nat with n by lia.
  revert a. induction n as [|n IH]; intros a Ha; [reflexivity|].
  rewrite (skipn_cons_nth d) by lia. cbn [firstn seq map]. f_equal.
  apply IH. lia.
Qed.

Lemma slice_from_one {A : Type} (l : list A) (w : nat) :
  slice 1 (w + 1) l = firstn w (skipn 1 l).
Proof. unfold slice. replace (w + 1 - 1)%nat with w by lia. reflexivity. Qed.

Lemma sma_prev_tail (values : list (option decimal)) (w : nat) :
  (1 <= w)%nat -> _sma_prev values w = _sma (skipn 1 values) w.
Proof.
  intros Hw. unfold _sma_prev, _sma.
  rewrite slice_from_one, length_skipn.
  replace (length values <? w + 1)%nat with (length values - 1 <? w)%nat.
  - reflexivity.
  - destruct (Nat.ltb_spec (length values - 1) w);
      destruct (Nat.ltb_spec (length values) (w + 1)); try reflexivity; lia.
Qed.

Lemma sma_prev_value (values : list (option decimal)) (w : nat) :
  (1 <= w)%nat -> (w + 1 <= length values)%nat ->
  _sma_prev values w =
  Ok (Some (quantize_half_up
              (Qsum (present (slice 1 (w + 1) values)) / Decimal_of_nat w))).
Proof.
  intros Hw Hlen. rewrite sma_prev_tail by assumption.
  rewrite sma_value by (rewrite length_skipn; lia).
  rewrite slice_from_one. reflexivity.
Qed.

(** C4: the previous-day average is the average of the series without its
    most recent element; it sums the values at offsets 1 to [w], and is
    absent unless there are [w + 1] values. *)
Theorem sma_prev_is_sma_of_tail (S : list (option decimal)) (w : nat) :
  (1 <= w)%nat ->
  _sma_prev S w = _sma (skipn 1 S) w /\
  ((w + 1 <= length S)%nat ->
   _sma_prev S w =
   Ok (Some (quantize_half_up
               (Qsum (present (map (fun i => nth i S None) (seq 1 w)))
                / Decimal_of_nat w)))) /\
  ((length S < w + 1)%nat -> _sma_prev S w = Ok None).
Proof.
  intros Hw. split; [|split].
  - apply sma_prev_tail. assumption.
  - intros Hlen. rewrite sma_prev_value by assumption.
    replace (w + 1)%nat with (1 + w)%nat by lia.
    rewrite (slice_offsets None) by lia. reflexivity.
  - intros Hlen. unfold _sma_prev.
    assert (Hlt : (length S <? w + 1)%nat = true) by (apply Nat.ltb_lt; lia).
    rewrite Hlt. reflexivity.
Qed.

(** ** Windows that hold a [None] *)

Lemma Qsum_present_none_as_zero (l : list (option decimal)) :
  Qsum (present (none_as_zero l)) == Qsum (present l).
Proof.
  induction l as [|[x|] l IH]; simpl.
  - reflexivity.
  - fold (present (none_as_zero l)). fold (present l). rewrite IH. reflexivity.
  - fold (present (none_as_zero l)). fold (present l). rewrite IH. lra.
Qed.

Lemma none_as_zero_firstn (l : list (option decimal)) (n : nat) :
  firstn n (none_as_zero l) = none_as_zero (firstn n l).
Proof. unfold none_as_zero. apply firstn_map. Qed.

Lemma none_as_zero_skipn (l : list (option decimal)) (n : nat) :
  skipn n (none_as_zero l) = none_as_zero (skipn n l).
Proof. unfold none_as_zero. apply skipn_map. Qed.

Lemma sma_none_as_zero (values : list (option decimal)) (w : nat) :
  (1 <= w <= length values)%nat ->
  _sma values w = _sma (none_as_zero values) w.
Proof.
  intros Hw.
  rewrite (@sma_value values w) by lia.
  rewrite (@sma_value (none_as_zero values) w)
    by (unfold none_as_zero; rewrite length_map; exact Hw).
  do 2 f_equal. apply quantize_half_up_comp.
  rewrite none_as_zero_firstn, Qsum_present_none_as_zero. reflexivity.
Qed.

(** C10: a [None] inside the window does not make the average absent: the
    entries that are not [None] are summed and the sum is divided by the full
    window size, so a [None] counts as a zero. *)
Theorem sma_none_counts_as_zero (values : list (option decimal)) (w : nat) :
  (1 <= w)%nat ->
  ((w <= length values)%nat ->
   _sma values w =
   Ok (Some (quantize_half_up
               (Qsum (present (firstn w values)) / Decimal_of_nat w))) /\
   _sma values w = _sma (none_as_zero values) w) /\
  ((w + 1 <= length values)%nat ->
   _sma_prev values w =
   Ok (Some (quantize_half_up
               (Qsum (present (map (fun i => nth i values None) (seq 1 w)))
                / Decimal_of_nat w))) /\
   _sma_prev values w = _sma_prev (none_as_zero values) w).
Proof.
  intros Hw. split.
  - intros Hlen. split.
    + apply sma_value. lia.
    + apply sma_none_as_zero. lia.
  - intros Hlen. split.
    + rewrite sma_prev_value by assumption.
      replace (w + 1)%nat with (1 + w)%nat by lia.
      rewrite (slice_offsets None) by lia. reflexivity.
    + rewrite !sma_prev_tail by assumption.
      rewrite none_as_zero_skipn. apply sma_none_as_zero.
      rewrite length_skipn. lia.
Qed.

(** ** Volume ratio *)

Lemma cents_half_even_comp (q q' : Q) :
  q == q' -> cents_half_even q = cents_half_even q'.
Proof.
  intros E. unfold cents_half_even. cbv zeta.
  assert (Ex : q * 100 == q' * 100) by (rewrite E; reflexivity).
  rewrite <- (Qfloor_comp _ _ Ex).
  set (f := Qfloor (q * 100)).
  destruct (Qlt_le_dec (q * 100 - inject_Z f) (1 # 2)) as [H1 | H1];
    destruct (Qlt_le_dec (q' * 100 - inject_Z f) (1 # 2)) as [H1' | H1'];
    try lra; [reflexivity|].
  destruct (Qlt_le_dec (1 # 2) (q * 100 - inject_Z f)) as [H2 | H2];
    destruct (Qlt_le_dec (1 # 2) (q' * 100 - inject_Z f)) as [H2' | H2'];
    try lra; reflexivity.
Qed.

Lemma round_half_even_comp (q q' : Q) :
  q == q' -> round_half_even q = round_half_even q'.
Proof.
  intros E. unfold round_half_even. rewrite (cents_half_even_comp E).
  reflexivity.
Qed.

Lemma inject_fold_Zadd (l : list Z) (a : Z) :
  inject_Z (fold_left Z.add l a) == inject_Z a + Qsum (map inject_Z l).
Proof.
  revert a. induction l as [|x l IH]; intros a; simpl.
  - lra.
  - rewrite IH, inject_Z_plus. lra.
Qed.

Lemma inject_Zsum (l : list Z) : inject_Z (Zsum l) == Qsum (map inject_Z l).
Proof. unfold Zsum. rewrite inject_fold_Zadd. apply Qplus_0_l. Qed.

(** *** Rounding to binary64 *)

Lemma pow2_pos (k : Z) : 0 < 2 ^ k.
Proof. apply Qpower_0_lt. reflexivity. Qed.

Lemma pow2_Z (k : Z) : (0 <= k)%Z -> inject_Z (2 ^ k) == 2 ^ k.
Proof. intros H. rewrite Zpower_Qpower by assumption. reflexivity. Qed.

Lemma pow2_add (n m : Z) : 2 ^ (n + m) == 2 ^ n * 2 ^ m.
Proof. apply Qpower_plus. discriminate. Qed.

Lemma pow2_succ (k : Z) : 2 ^ (k + 1) == 2 * 2 ^ k.
Proof. rewrite pow2_add. change (2 ^ 1) with 2. ring. Qed.

Lemma pow2_le (n m : Z) : (n <= m)%Z -> 2 ^ n <= 2 ^ m.
Proof. intros H. apply Qpower_le_compat_l; [assumption | discriminate]. Qed.

Lemma pow2_lt_inv (n m : Z) : 2 ^ n < 2 ^ m -> (n < m)%Z.
Proof. intros H. apply (Qpower_lt_compat_l_inv 2); [assumption | reflexivity]. Qed.

Lemma Qmake_div (n : Z) (d : positive) : n # d == inject_Z n / inject_Z (Zpos d).
Proof. apply Qmake_Qdiv. Qed.

Lemma binade_spec (a : Q) :
  0 < a -> 2 ^ binade a <= a /\ a < 2 ^ (binade a + 1).
Proof.
  intros Ha. destruct a as [n d].
  assert (Hn : (0 < n)%Z) by (unfold Qlt in Ha; simpl in Ha; lia).
  unfold binade. cbn [Qnum Qden].
  set (ln := Z.log2 n). set (ld := Z.log2 (Zpos d)).
  destruct (Z.log2_spec n Hn) as [Hn1 Hn2]. fold ln in Hn1, Hn2.
  destruct (Z.log2_spec (Zpos d) eq_refl) as [Hd1 Hd2]. fold ld in Hd1, Hd2.
  assert (Hln : (0 <= ln)%Z) by apply Z.log2_nonneg.
  assert (Hld : (0 <= ld)%Z) by apply Z.log2_nonneg.
  assert (En : 2 ^ (ln - ld + 1) * 2 ^ ld == 2 * 2 ^ ln).
  { rewrite <- pow2_add, <- pow2_succ. replace (ln - ld + 1 + ld)%Z with (ln + 1)%Z by lia. reflexivity. }
  assert (Ee : 2 ^ (ln - ld) * 2 ^ ld == 2 ^ ln).
  { rewrite <- pow2_add. replace (ln - ld + ld)%Z with ln by lia. reflexivity. }
  assert (Ee1 : 2 * 2 ^ (ln - ld - 1) == 2 ^ (ln - ld)).
  { rewrite <- pow2_succ. replace (ln - ld - 1 + 1)%Z with (ln - ld)%Z by lia. reflexivity. }
  pose proof (pow2_pos (ln - ld)) as Pe.
  pose proof (pow2_pos ln) as Pn. pose proof (pow2_pos ld) as Pd.
  assert (Qn1 : 2 ^ ln <= inject_Z n).
  { rewrite <- pow2_Z by assumption. rewrite <- Zle_Qle. assumption. }
  assert (Qn2 : inject_Z n < 2 * 2 ^ ln).
  { rewrite <- pow2_succ, <- pow2_Z by lia. rewrite <- Zlt_Qlt. unfold Z.succ in Hn2. assumption. }
  assert (Qd1 : 2 ^ ld <= inject_Z (Zpos d)).
  { rewrite <- pow2_Z by assumption. rewrite <- Zle_Qle. assumption. }
  assert (Qd2 : inject_Z (Zpos d) < 2 * 2 ^ ld).
  { rewrite <- pow2_succ, <- pow2_Z by lia. rewrite <- Zlt_Qlt. unfold Z.succ in Hd2. assumption. }
  assert (Ea : (n # d) * inject_Z (Zpos d) == inject_Z n).
  { rewrite Qmake_div. field. intros E. unfold Qeq in E. simpl in E. lia. }
  set (a := n # d) in *. set (N := inject_Z n) in *. set (D := inject_Z (Zpos d)) in *.
  set (P := 2 ^ ln) in *. set (R := 2 ^ ld) in *.
  destruct (Qle_bool (2 ^ (ln - ld)) a) eqn:E.
  - apply Qle_bool_iff in E. split; [assumption|].
    set (X := 2 ^ (ln - ld + 1)) in *. nra.
  - assert (Hlt : a < 2 ^ (ln - ld)).
    { apply Qnot_le_lt. intros H. apply Qle_bool_iff in H. congruence. }
    replace (ln - ld - 1 + 1)%Z with (ln - ld)%Z by lia.
    split; [|assumption].
    set (X := 2 ^ (ln - ld)) in *. set (Y := 2 ^ (ln - ld - 1)) in *. nra.
Qed.

Lemma binade_unique (a : Q) (e : Z) :
  2 ^ e <= a -> a < 2 ^ (e + 1) -> binade a = e.
Proof.
  intros H1 H2.
  assert (Ha : 0 < a) by (pose proof (pow2_pos e); lra).
  destruct (binade_spec Ha) as [B1 B2].
  assert (L1 : (e < binade a + 1)%Z) by (apply pow2_lt_inv; lra).
  assert (L2 : (binade a < e + 1)%Z) by (apply pow2_lt_inv; lra).
  lia.
Qed.

Lemma binade_comp (a a' : Q) : a == a' -> 0 < a -> binade a = binade a'.
Proof.
  intros E Ha. symmetry. destruct (binade_spec Ha) as [B1 B2].
  apply binade_unique; rewrite <- E; assumption.
Qed.

Lemma Qround_even_comp (x y : Q) : x == y -> Qround_even x = Qround_even y.
Proof.
  intros E. unfold Qround_even. cbv zeta.
  rewrite <- (Qfloor_comp _ _ E).
  set (f := Qfloor x).
  destruct (Qlt_le_dec (x - inject_Z f) (1 # 2)) as [H1 | H1];
    destruct (Qlt_le_dec (y - inject_Z f) (1 # 2)) as [H1' | H1'];
    try lra; [reflexivity|].
  destruct (Qlt_le_dec (1 # 2) (x - inject_Z f)) as [H2 | H2];
    destruct (Qlt_le_dec (1 # 2) (y - inject_Z f)) as [H2' | H2'];
    try lra; reflexivity.
Qed.

Lemma Qround_even_bounds (x : Q) :
  x - (1 # 2) <= inject_Z (Qround_even x) /\
  inject_Z (Qround_even x) <= x + (1 # 2).
Proof.
  unfold Qround_even. cbv zeta.
  pose proof (Qfloor_le x) as Hlo.
  pose proof (Qlt_floor x) as Hhi.
  rewrite inject_Z_plus in Hhi. change (inject_Z 1) with 1 in Hhi.
  set (f := Qfloor x) in *.
  destruct (Qlt_le_dec (x - inject_Z f) (1 # 2)) as [H1 | H1];
    [split; lra|].
  destruct (Qlt_le_dec (1 # 2) (x - inject_Z f)) as [H2 | H2].
  - rewrite inject_Z_plus. change (inject_Z 1) with 1. split; lra.
  - destruct (Z.even f); [split; lra|].
    rewrite inject_Z_plus. change (inject_Z 1) with 1. split; lra.
Qed.

Lemma Qround_even_Z (k : Z) : Qround_even (inject_Z k) = k.
Proof.
  unfold Qround_even. cbv zeta. rewrite Qfloor_Z.
  destruct (Qlt_le_dec (inject_Z k - inject_Z k) (1 # 2)); [reflexivity|lra].
Qed.

(** Rounding to an integer at most doubles a non-negative number. *)
Lemma Qround_even_double (x : Q) :
  0 <= x -> 0 <= inject_Z (Qround_even x) /\ inject_Z (Qround_even x) <= 2 * x.
Proof.
  intros Hx. destruct (Qround_even_bounds x) as [B1 B2].
  destruct (Qlt_le_dec x (1 # 2)) as [Hs | Hl].
  - assert (E : Qround_even x = 0%Z).
    { unfold Qround_even. cbv zeta.
      assert (Ef : Qfloor x = 0%Z).
      { pose proof (Qfloor_le x) as F1. pose proof (Qlt_floor x) as F2.
        rewrite inject_Z_plus in F2. change (inject_Z 1) with 1 in F2.
        assert (G1 : inject_Z (Qfloor x) < inject_Z 1) by (change (inject_Z 1) with 1; lra).
        assert (G2 : inject_Z (-1) < inject_Z (Qfloor x)) by (change (inject_Z (-1)) with (-1 # 1); lra).
        rewrite <- Zlt_Qlt in G1, G2. lia. }
      rewrite Ef. change (inject_Z 0) with 0.
      destruct (Qlt_le_dec (x - 0) (1 # 2)); [reflexivity|lra]. }
    rewrite E. change (inject_Z 0) with 0. lra.
  - split; [|lra].
    assert (G : inject_Z (-1) < inject_Z (Qround_even x)) by (change (inject_Z (-1)) with (-1 # 1); lra).
    rewrite <- Zlt_Qlt in G.
    change 0 with (inject_Z 0). rewrite <- Zle_Qle. lia.
Qed.

Lemma binary64_abs_bounds (a : Q) :
  0 < a -> 0 <= binary64_abs a /\ binary64_abs a <= 2 * a.
Proof.
  intros Ha. unfold binary64_abs. cbv zeta.
  set (ulp := 2 ^ (Z.max (binade a) (-1022) - 52)).
  assert (Hu : 0 < ulp) by apply pow2_pos.
  assert (Hy : 0 <= a / ulp).
  { apply Qle_shift_div_l; [assumption|lra]. }
  destruct (Qround_even_double Hy) as [M1 M2].
  assert (Ey : a / ulp * ulp == a) by (field; lra).
  set (m := inject_Z (Qround_even (a / ulp))) in *.
  set (y := a / ulp) in *.
  split; nra.
Qed.

(** In the normal range the relative error is at most [2 ^ -53]. *)
Lemma binary64_abs_error (a : Q) :
  2 ^ (-1022) <= a ->
  Qabs (binary64_abs a - a) <= a * 2 ^ (-53).
Proof.
  intros Hn.
  assert (Ha : 0 < a) by (pose proof (pow2_pos (-1022)); lra).
  destruct (binade_spec Ha) as [B1 B2].
  assert (He : (-1022 <= binade a)%Z).
  { assert (L : (-1022 < binade a + 1)%Z) by (apply pow2_lt_inv; lra). lia. }
  unfold binary64_abs. cbv zeta. rewrite Z.max_l by assumption.
  set (e := binade a) in *.
  set (ulp := 2 ^ (e - 52)).
  assert (Hu : 0 < ulp) by apply pow2_pos.
  assert (Eu : ulp * (1 # 2) == 2 ^ e * 2 ^ (-53)).
  { unfold ulp. rewrite <- pow2_add.
    replace (e - 52)%Z with (e + -53 + 1)%Z by lia. rewrite pow2_succ. ring. }
  destruct (Qround_even_bounds (a / ulp)) as [M1 M2].
  assert (Ey : a / ulp * ulp == a) by (field; lra).
  pose proof (pow2_pos (-53)) as P53.
  set (m := inject_Z (Qround_even (a / ulp))) in *.
  set (y := a / ulp) in *. set (u := 2 ^ (-53)) in *. set (pe := 2 ^ e) in *.
  apply Qabs_Qle_condition. split; nra.
Qed.

Lemma binary64_finite (q : Q) :
  Qabs q < 2 ^ 1023 -> exists v, binary64 q = Fin v /\ Qabs v <= 2 * Qabs q.
Proof.
  intros Hq. unfold binary64.
  destruct (Qeq_bool q 0) eqn:E0.
  - exists 0. split; [reflexivity|]. pose proof (Qabs_nonneg q). change (Qabs 0) with 0. lra.
  - apply Qeq_bool_neq in E0.
    assert (Ha : 0 < Qabs q).
    { pose proof (Qabs_nonneg q) as Hn.
      destruct (Qlt_le_dec 0 (Qabs q)) as [|Hz]; [assumption|].
      exfalso. apply E0. apply Qabs_Qle_condition in Hz. lra. }
    destruct (binary64_abs_bounds Ha) as [V1 V2]. cbv zeta.
    assert (Ep : 2 ^ 1024 == 2 * 2 ^ 1023) by reflexivity.
    destruct (Qle_bool (2 ^ 1024) (binary64_abs (Qabs q))) eqn:Eo.
    + apply Qle_bool_iff in Eo. lra.
    + eexists. split; [reflexivity|].
      destruct (Qle_bool 0 q); [|rewrite Qabs_opp]; rewrite Qabs_pos; assumption.
Qed.

Lemma Qabs_pos_lt (q : Q) : ~ q == 0 -> 0 < Qabs q.
Proof.
  intros E0. pose proof (Qabs_nonneg q) as Hn.
  destruct (Qlt_le_dec 0 (Qabs q)) as [|Hz]; [assumption|].
  exfalso. apply E0. apply Qabs_Qle_condition in Hz. lra.
Qed.

Lemma binary64_abs_comp (a a' : Q) :
  a == a' -> 0 < a -> binary64_abs a = binary64_abs a'.
Proof.
  intros E Ha. unfold binary64_abs. cbv zeta.
  rewrite <- (binade_comp E Ha).
  set (ulp := 2 ^ (Z.max (binade a) (-1022) - 52)).
  assert (Ey : a / ulp == a' / ulp) by (rewrite E; reflexivity).
  rewrite (Qround_even_comp Ey). reflexivity.
Qed.

Lemma Qle_bool_comp_r (a b c : Q) : b == c -> Qle_bool a b = Qle_bool a c.
Proof.
  intros E. destruct (Qle_bool a b) eqn:E1, (Qle_bool a c) eqn:E2; try reflexivity.
  - apply Qle_bool_iff in E1. rewrite E in E1. apply Qle_bool_iff in E1. congruence.
  - apply Qle_bool_iff in E2. rewrite <- E in E2. apply Qle_bool_iff in E2. congruence.
Qed.

Lemma binary64_comp (q q' : Q) : q == q' -> binary64 q = binary64 q'.
Proof.
  intros E. unfold binary64.
  assert (E0 : Qeq_bool q 0 = Qeq_bool q' 0).
  { destruct (Qeq_bool q 0) eqn:Ea, (Qeq_bool q' 0) eqn:Eb; try reflexivity.
    - apply Qeq_bool_eq in Ea. apply Qeq_bool_neq in Eb. exfalso. apply Eb.
      rewrite <- E. exact Ea.
    - apply Qeq_bool_eq in Eb. apply Qeq_bool_neq in Ea. exfalso. apply Ea.
      rewrite E. exact Eb. }
  rewrite <- E0. destruct (Qeq_bool q 0) eqn:Ez; [reflexivity|].
  apply Qeq_bool_neq in Ez.
  assert (Ea : Qabs q == Qabs q') by (rewrite E; reflexivity).
  rewrite <- (binary64_abs_comp Ea (Qabs_pos_lt Ez)).
  rewrite <- (Qle_bool_comp_r 0 E). reflexivity.
Qed.

(** A finite result has the sign of the number that was rounded. *)
Lemma binary64_sign (q v : Q) :
  binary64 q = Fin v -> (0 <= q -> 0 <= v) /\ (q <= 0 -> v <= 0).
Proof.
  unfold binary64. destruct (Qeq_bool q 0) eqn:E0.
  - intros H. inversion H. split; intros; lra.
  - apply Qeq_bool_neq in E0. cbv zeta.
    destruct (binary64_abs_bounds (Qabs_pos_lt E0)) as [V1 _].
    destruct (Qle_bool (2 ^ 1024) _); [destruct (Qle_bool 0 q); discriminate|].
    destruct (Qle_bool 0 q) eqn:Es; intros H; inversion H; subst; clear H.
    + apply Qle_bool_iff in Es. split; intros; [assumption|].
      exfalso. apply E0. lra.
    + assert (Hq : q < 0).
      { apply Qnot_le_lt. intros C. apply Qle_bool_iff in C. congruence. }
      split; intros; lra.
Qed.

(** Rounding a non-negative number gives a non-negative number or the
    positive infinity. *)
Lemma binary64_nonneg (q : Q) :
  0 <= q -> binary64 q = PInf \/ exists v, binary64 q = Fin v /\ 0 <= v.
Proof.
  intros Hq. destruct (binary64 q) as [v| | |] eqn:E.
  - right. exists v. split; [reflexivity|]. apply (@binary64_sign q v E). assumption.
  - left. reflexivity.
  - exfalso. unfold binary64 in E. destruct (Qeq_bool q 0); [discriminate|].
    cbv zeta in E. apply Qle_bool_iff in Hq. rewrite Hq in E.
    destruct (Qle_bool (2 ^ 1024) _); discriminate.
  - exfalso. unfold binary64 in E. destruct (Qeq_bool q 0); [discriminate|].
    cbv zeta in E.
    destruct (Qle_bool (2 ^ 1024) _); destruct (Qle_bool 0 q); discriminate.
Qed.

(** In the normal range the result is finite and within a relative error of
    [2 ^ -53]. *)
Lemma binary64_normal (q : Q) :
  2 ^ (-1022) <= Qabs q -> Qabs q < 2 ^ 1023 ->
  exists v, binary64 q = Fin v /\ Qabs (v - q) <= Qabs q * 2 ^ (-53).
Proof.
  intros Hlo Hhi.
  assert (Ha : 0 < Qabs q) by (pose proof (pow2_pos (-1022)); lra).
  assert (E0 : Qeq_bool q 0 = false).
  { destruct (Qeq_bool q 0) eqn:E; [|reflexivity].
    apply Qeq_bool_eq in E. rewrite E in Ha. discriminate Ha. }
  pose proof (binary64_abs_error Hlo) as Herr.
  destruct (binary64_abs_bounds Ha) as [V1 V2].
  unfold binary64. rewrite E0. cbv zeta.
  assert (Ep : 2 ^ 1024 == 2 * 2 ^ 1023) by reflexivity.
  destruct (Qle_bool (2 ^ 1024) (binary64_abs (Qabs q))) eqn:Eo.
  { apply Qle_bool_iff in Eo. lra. }
  eexists. split; [reflexivity|].
  set (B := binary64_abs (Qabs q)) in *.
  destruct (Qle_bool 0 q) eqn:Es.
  - apply Qle_bool_iff in Es. pose proof (Qabs_pos q Es) as Eabs.
    assert (Eq : B - q == B - Qabs q) by (rewrite Eabs; reflexivity).
    rewrite Eq. assumption.
  - assert (Hq : q <= 0).
    { apply Qlt_le_weak. apply Qnot_le_lt. intros C. apply Qle_bool_iff in C. congruence. }
    pose proof (Qabs_neg q Hq) as Eabs.
    assert (Eq : - B - q == - (B - Qabs q)) by (rewrite Eabs; ring).
    rewrite Eq, Qabs_opp. assumption.
Qed.

(** Integers of at most 53 bits are binary64 numbers. *)
Lemma binary64_abs_int (z : Z) :
  (0 < z < 2 ^ 53)%Z -> binary64_abs (inject_Z z) == inject_Z z.
Proof.
  intros [Hz1 Hz2].
  destruct (Z.log2_spec z Hz1) as [L1 L2].
  assert (HL0 : (0 <= Z.log2 z)%Z) by apply Z.log2_nonneg.
  assert (HL : (Z.log2 z < 53)%Z) by (apply Z.log2_lt_pow2; assumption).
  assert (Eb : binade (inject_Z z) = Z.log2 z).
  { apply binade_unique.
    - rewrite <- pow2_Z by assumption. rewrite <- Zle_Qle. assumption.
    - rewrite <- pow2_Z by lia. rewrite <- Zlt_Qlt. unfold Z.succ in L2. assumption. }
  unfold binary64_abs. cbv zeta. rewrite Eb, Z.max_l by lia.
  set (l := Z.log2 z) in *.
  assert (Ey : inject_Z z / 2 ^ (l - 52) == inject_Z (z * 2 ^ (52 - l))).
  { rewrite inject_Z_mult, pow2_Z by lia.
    replace (l - 52)%Z with (- (52 - l))%Z by lia. rewrite Qpower_opp.
    field. pose proof (pow2_pos (52 - l)). lra. }
  rewrite (Qround_even_comp Ey), Qround_even_Z.
  rewrite inject_Z_mult, pow2_Z by lia. rewrite <- Qmult_assoc, <- pow2_add.
  replace (52 - l + (l - 52))%Z with 0%Z by lia. change (2 ^ 0) with 1. ring.
Qed.

Lemma binary64_int (z : Z) :
  (0 <= z < 2 ^ 53)%Z -> exists v, binary64 (inject_Z z) = Fin v /\ v == inject_Z z.
Proof.
  intros Hz. unfold binary64.
  destruct (Qeq_bool (inject_Z z) 0) eqn:E0.
  - exists 0. split; [reflexivity|]. apply Qeq_bool_eq in E0. symmetry. assumption.
  - apply Qeq_bool_neq in E0.
    assert (Hpos : (0 < z)%Z).
    { destruct (Z.eq_dec z 0) as [->|]; [exfalso; apply E0; reflexivity | lia]. }
    assert (Hq : 0 <= inject_Z z).
    { change 0 with (inject_Z 0). rewrite <- Zle_Qle. lia. }
    cbv zeta.
    assert (Eabs : Qabs (inject_Z z) = inject_Z z).
    { unfold Qabs, inject_Z. rewrite Z.abs_eq by lia. reflexivity. }
    rewrite Eabs.
    pose proof (@binary64_abs_int z (conj Hpos (proj2 Hz))) as Ev.
    assert (Hlt : inject_Z z < 2 ^ 1024).
    { apply Qlt_le_trans with (inject_Z (2 ^ 53)).
      - rewrite <- Zlt_Qlt. lia.
      - rewrite pow2_Z by lia. apply pow2_le. lia. }
    destruct (Qle_bool (2 ^ 1024) (binary64_abs (inject_Z z))) eqn:Eo.
    { apply Qle_bool_iff in Eo. lra. }
    apply Qle_bool_iff in Hq. rewrite Hq.
    eexists. split; [reflexivity | assumption].
Qed.

Lemma Qmult_le_l_alt (x y z : Q) : 0 <= z -> x <= y -> z * x <= z * y.
Proof.
  intros Hz H. rewrite (Qmult_comm z x), (Qmult_comm z y).
  apply Qmult_le_compat_r; assumption.
Qed.

Lemma near_weaken (u u' x q : Q) : u <= u' -> near u x q -> near u' x q.
Proof.
  unfold near. intros Hu H. pose proof (Qabs_nonneg q). 
  set (A := Qabs (x - q)) in *. set (B := Qabs q) in *. nra.
Qed.

Lemma near_trans (u v x y z : Q) :
  0 <= u -> 0 <= v -> near u x y -> near v y z -> near (u + v + u * v) x z.
Proof.
  unfold near. intros Hu Hv H1 H2.
  assert (T1 : Qabs (x - z) <= Qabs (x - y) + Qabs (y - z)).
  { assert (E : x - z == (x - y) + (y - z)) by ring. rewrite E. apply Qabs_triangle. }
  assert (T2 : Qabs y <= Qabs z + Qabs (y - z)).
  { assert (E : y == z + (y - z)) by ring. rewrite E at 1. apply Qabs_triangle. }
  pose proof (Qabs_nonneg z).
  set (A := Qabs (x - z)) in *. set (B := Qabs (x - y)) in *.
  set (C := Qabs (y - z)) in *. set (Y := Qabs y) in *. set (Z := Qabs z) in *.
  nra.
Qed.

Lemma near_nonzero (u b q : Q) :
  u < 1 -> near u b q -> ~ q == 0 -> ~ b == 0.
Proof.
  unfold near. intros Hu H Hq Hb.
  pose proof (Qabs_pos_lt Hq) as Pq.
  assert (E : b - q == - q) by (rewrite Hb; ring).
  rewrite E, Qabs_opp in H. set (Z := Qabs q) in *. nra.
Qed.

Lemma near_div (u a b p q : Q) :
  0 <= u -> u <= 1 # 4 -> near u a p -> near u b q -> ~ q == 0 ->
  near (3 * u) (a / b) (p / q).
Proof.
  intros Hu0 Hu Ha Hb Hq.
  assert (Hbz : ~ b == 0) by (apply (@near_nonzero u b q); [lra | assumption..]).
  unfold near in *.
  assert (En : (a / b - p / q) * (b * q) == (a - p) * q - p * (b - q))
    by (field; split; assumption).
  assert (An : Qabs (a / b - p / q) * (Qabs b * Qabs q)
               <= Qabs (a - p) * Qabs q + Qabs p * Qabs (b - q)).
  { rewrite <- !Qabs_Qmult, En.
    assert (E : (a - p) * q - p * (b - q) == (a - p) * q + - (p * (b - q))) by ring.
    rewrite E. eapply Qle_trans; [apply Qabs_triangle|]. rewrite Qabs_opp. lra. }
  assert (Tb : Qabs q <= Qabs b + Qabs (b - q)).
  { assert (E : q == b + - (b - q)) by ring. rewrite E at 1.
    eapply Qle_trans; [apply Qabs_triangle|]. rewrite Qabs_opp. lra. }
  assert (Ep : Qabs (p / q) * Qabs q == Qabs p).
  { rewrite <- Qabs_Qmult. apply Qabs_wd. field. assumption. }
  pose proof (Qabs_pos_lt Hq) as Pq.
  pose proof (Qabs_nonneg p) as Pp. pose proof (Qabs_nonneg (p / q)) as Ppq.
  pose proof (Qabs_nonneg (a / b - p / q)) as PX.
  pose proof (Qabs_nonneg (a - p)) as PA. pose proof (Qabs_nonneg (b - q)) as PB.
  pose proof (Qabs_nonneg b) as Pb.
  set (X := Qabs (a / b - p / q)) in *. set (A := Qabs (a - p)) in *.
  set (B := Qabs (b - q)) in *. set (P := Qabs p) in *. set (Y := Qabs q) in *.
  set (Bb := Qabs b) in *. set (R := Qabs (p / q)) in *.
  (* X * (Bb * Y) <= 2 u P Y,  Bb >= (3/4) Y  *)
  assert (S0a : A * Y <= P * u * Y) by (apply Qmult_le_compat_r; lra).
  assert (S0b : P * B <= P * (Y * u)) by (apply Qmult_le_l_alt; assumption).
  assert (S1 : X * (Bb * Y) <= 2 * u * (P * Y)) by lra.
  assert (S2 : (3 # 4) * Y <= Bb).
  { assert (Y * u <= Y * (1 # 4)) by (apply Qmult_le_l_alt; lra). lra. }
  assert (S3 : X * ((3 # 4) * Y) <= X * Bb) by (apply Qmult_le_l_alt; assumption).
  assert (S4 : (X * (3 # 4)) * Y * Y <= (2 * u * R) * Y * Y).
  { assert (X * ((3 # 4) * Y) * Y <= X * Bb * Y) by (apply Qmult_le_compat_r; lra).
    rewrite <- Ep in S1. lra. }
  assert (S5 : (X * (3 # 4)) * Y <= (2 * u * R) * Y).
  { apply Qmult_le_r with Y; assumption. }
  assert (S6 : X * (3 # 4) <= 2 * u * R).
  { apply Qmult_le_r with Y; assumption. }
  lra.
Qed.

Lemma binary64_near (q : Q) :
  Qabs q < 2 ^ 1023 -> q == 0 \/ 2 ^ (-1022) <= Qabs q ->
  exists v, binary64 q = Fin v /\ near (2 ^ (-53)) v q.
Proof.
  intros Hhi [Hz | Hlo].
  - exists 0. split.
    + rewrite (binary64_comp Hz). reflexivity.
    + unfold near. rewrite Hz. discriminate.
  - apply binary64_normal; assumption.
Qed.

Lemma near_bounds (u x q : Q) :
  0 <= u -> u <= 1 # 2 -> near u x q ->
  Qabs q <= 2 * Qabs x /\ Qabs x <= 2 * Qabs q.
Proof.
  unfold near. intros Hu0 Hu H.
  assert (T1 : Qabs x <= Qabs q + Qabs (x - q)).
  { assert (E : x == q + (x - q)) by ring. rewrite E at 1. apply Qabs_triangle. }
  assert (T2 : Qabs q <= Qabs x + Qabs (x - q)).
  { assert (E : q == x + - (x - q)) by ring. rewrite E at 1.
    eapply Qle_trans; [apply Qabs_triangle|]. rewrite Qabs_opp. lra. }
  pose proof (Qabs_nonneg q) as Pq.
  assert (Hh : Qabs q * u <= Qabs q * (1 # 2)) by (apply Qmult_le_l_alt; assumption).
  split; lra.
Qed.

(** *** The quotient of a sum by a mean *)

Lemma fold_Zadd_bounded (B : Z) (l : list Z) (a : Z) :
  Forall (fun v => (- B <= v <= B)%Z) l ->
  (a - Z.of_nat (length l) * B <= fold_left Z.add l a
   <= a + Z.of_nat (length l) * B)%Z.
Proof.
  intros H. revert a. induction H as [|x l Hx Hl IH]; intros a.
  - cbn [fold_left length]. lia.
  - cbn [fold_left length]. specialize (IH (a + x)%Z).
    rewrite Nat2Z.inj_succ, Z.mul_succ_l. lia.
Qed.

Lemma Zsum_firstn_bounded (B : Z) (k : nat) (l : list Z) :
  Forall (fun v => (- B <= v <= B)%Z) l -> (k <= length l)%nat ->
  (Z.abs (Zsum (firstn k l)) <= Z.of_nat k * B)%Z.
Proof.
  intros H Hk.
  assert (Hf : Forall (fun v => (- B <= v <= B)%Z) (firstn k l)).
  { clear Hk. revert k. induction H as [|x l Hx Hl IH]; intros k.
    - rewrite firstn_nil. constructor.
    - destruct k as [|k]; [constructor|].
      cbn [firstn]. constructor; [assumption | apply IH]. }
  pose proof (fold_Zadd_bounded 0 Hf) as Hb.
  rewrite firstn_length_le in Hb by assumption.
  unfold Zsum. lia.
Qed.

Lemma Qabs_inject_Z (z : Z) : Qabs (inject_Z z) = inject_Z (Z.abs z).
Proof. reflexivity. Qed.

(** The size of the exact quotient [S / (T / n)] for sums of 64-bit
    integers. *)
Lemma ratio_magnitude (S T n : Z) :
  (1 <= n < 2 ^ 63)%Z -> (Z.abs S <= 2 ^ 126)%Z ->
  (Z.abs T <= n * 2 ^ 63)%Z -> T <> 0%Z ->
  Qabs (inject_Z S / (inject_Z T / inject_Z n)) <= 2 ^ 189 /\
  (S = 0%Z -> inject_Z S / (inject_Z T / inject_Z n) == 0) /\
  (S <> 0%Z -> 2 ^ (-63) <= Qabs (inject_Z S / (inject_Z T / inject_Z n))).
Proof.
  intros Hn HS HT HT0.
  assert (Nn : ~ inject_Z n == 0).
  { intros E. unfold Qeq in E. cbn in E. lia. }
  assert (NT : ~ inject_Z T == 0).
  { intros E. unfold Qeq in E. cbn in E. lia. }
  set (Q0 := inject_Z S / (inject_Z T / inject_Z n)).
  assert (E : Q0 * inject_Z T == inject_Z S * inject_Z n).
  { unfold Q0. field. split; assumption. }
  assert (Ea : Qabs Q0 * inject_Z (Z.abs T) == inject_Z (Z.abs S) * inject_Z n).
  { rewrite <- !Qabs_inject_Z, <- Qabs_Qmult, E, Qabs_Qmult.
    rewrite (Qabs_inject_Z n), Z.abs_eq by lia. reflexivity. }
  pose proof (Qabs_nonneg Q0) as PX.
  assert (B1 : 1 <= inject_Z (Z.abs T)).
  { change 1 with (inject_Z 1). rewrite <- Zle_Qle. lia. }
  assert (B2 : inject_Z (Z.abs T) <= inject_Z n * inject_Z (2 ^ 63)).
  { rewrite <- inject_Z_mult, <- Zle_Qle. assumption. }
  assert (B3 : 0 <= inject_Z (Z.abs S)).
  { change 0 with (inject_Z 0). rewrite <- Zle_Qle. lia. }
  assert (B4 : inject_Z (Z.abs S) <= inject_Z (2 ^ 126)).
  { rewrite <- Zle_Qle. assumption. }
  assert (B5 : 1 <= inject_Z n).
  { change 1 with (inject_Z 1). rewrite <- Zle_Qle. lia. }
  assert (B6 : inject_Z n <= inject_Z (2 ^ 63)).
  { rewrite <- Zle_Qle. lia. }
  set (X := Qabs Q0) in *. set (Tq := inject_Z (Z.abs T)) in *.
  set (A := inject_Z (Z.abs S)) in *. set (Wq := inject_Z n) in *.
  split; [|split].
  - assert (C1 : X * 1 <= X * Tq) by (apply Qmult_le_l_alt; assumption).
    assert (C2 : A * Wq <= inject_Z (2 ^ 126) * Wq)
      by (apply Qmult_le_compat_r; lra).
    assert (C3 : inject_Z (2 ^ 126) * Wq <= inject_Z (2 ^ 126) * inject_Z (2 ^ 63)).
    { apply Qmult_le_l_alt; [discriminate | assumption]. }
    assert (C4 : inject_Z (2 ^ 126) * inject_Z (2 ^ 63) == 2 ^ 189) by reflexivity.
    lra.
  - intros HS0. unfold Q0. rewrite HS0. unfold Qdiv. apply Qmult_0_l.
  - intros HS0.
    assert (B7 : 1 <= A).
    { unfold A. change 1 with (inject_Z 1). rewrite <- Zle_Qle. lia. }
    assert (C1 : 1 * Wq <= A * Wq) by (apply Qmult_le_compat_r; lra).
    assert (C2 : X * Tq <= X * (Wq * inject_Z (2 ^ 63)))
      by (apply Qmult_le_l_alt; assumption).
    assert (C3 : 1 * Wq <= (X * inject_Z (2 ^ 63)) * Wq) by lra.
    assert (C4 : 1 <= X * inject_Z (2 ^ 63)).
    { apply Qmult_le_r with Wq; lra. }
    assert (C5 : 2 ^ (-63) * inject_Z (2 ^ 63) == 1) by reflexivity.
    assert (C6 : 2 ^ (-63) * inject_Z (2 ^ 63) <= X * inject_Z (2 ^ 63)) by lra.
    apply Qmult_le_r with (inject_Z (2 ^ 63)); [reflexivity | assumption].
Qed.

(** The size of the exact mean [T / n] of 64-bit integers. *)
Lemma mean_magnitude (T n : Z) :
  (1 <= n < 2 ^ 63)%Z -> (Z.abs T <= n * 2 ^ 63)%Z -> T <> 0%Z ->
  ~ inject_Z T / inject_Z n == 0 /\
  2 ^ (-63) <= Qabs (inject_Z T / inject_Z n) /\
  Qabs (inject_Z T / inject_Z n) <= 2 ^ 63.
Proof.
  intros Hn HT HT0.
  assert (Nn : ~ inject_Z n == 0).
  { intros E. unfold Qeq in E. cbn in E. lia. }
  assert (NT : ~ inject_Z T == 0).
  { intros E. unfold Qeq in E. cbn in E. lia. }
  set (M := inject_Z T / inject_Z n).
  assert (E : M * inject_Z n == inject_Z T) by (unfold M; field; assumption).
  assert (Ea : Qabs M * inject_Z n == inject_Z (Z.abs T)).
  { rewrite <- (Qabs_inject_Z T), <- E, Qabs_Qmult.
    rewrite (Qabs_inject_Z n), Z.abs_eq by lia. reflexivity. }
  pose proof (Qabs_nonneg M) as PX.
  assert (B1 : 1 <= inject_Z (Z.abs T)).
  { change 1 with (inject_Z 1). rewrite <- Zle_Qle. lia. }
  assert (B2 : inject_Z (Z.abs T) <= inject_Z (2 ^ 63) * inject_Z n).
  { rewrite <- inject_Z_mult, <- Zle_Qle. lia. }
  assert (B5 : 1 <= inject_Z n).
  { change 1 with (inject_Z 1). rewrite <- Zle_Qle. lia. }
  assert (B6 : inject_Z n <= inject_Z (2 ^ 63)).
  { rewrite <- Zle_Qle. lia. }
  set (X := Qabs M) in *. set (Tq := inject_Z (Z.abs T)) in *.
  set (Wq := inject_Z n) in *.
  split; [|split].
  - intros HM. rewrite HM in E. apply NT. rewrite <- E. ring.
  - assert (C1 : X * Wq <= X * inject_Z (2 ^ 63))
      by (apply Qmult_le_l_alt; assumption).
    assert (C5 : 2 ^ (-63) * inject_Z (2 ^ 63) == 1) by reflexivity.
    apply Qmult_le_r with (inject_Z (2 ^ 63)); [reflexivity | lra].
  - change (2 ^ 63) with (inject_Z (2 ^ 63)).
    apply Qmult_le_r with Wq; lra.
Qed.

Lemma firstn_nonempty {A : Type} (l : list A) (w : nat) :
  (1 <= w <= length l)%nat -> firstn w l <> [].
Proof.
  intros Hw E. apply (f_equal (@length A)) in E.
  rewrite firstn_length_le in E by lia. cbn [length] in E. lia.
Qed.

(** [statistics.mean] on a slice that is not empty. *)
Lemma statistics_mean_firstn (volumes : list Z) (w : nat) :
  (1 <= w)%nat -> (w <= length volumes)%nat ->
  statistics_mean (firstn w volumes) =
  if (Zsum (firstn w volumes) mod Z.of_nat w =? 0)%Z
  then Ok (PyInt (Zsum (firstn w volumes) / Z.of_nat w))
  else x <- int_truediv (Zsum (firstn w volumes)) (Z.of_nat w) ;; Ok (PyFloat x).
Proof.
  intros Hw Hl. pose proof (@firstn_nonempty Z volumes w (conj Hw Hl)) as Hne.
  unfold statistics_mean. rewrite firstn_length_le by assumption.
  destruct (firstn w volumes); [contradiction | reflexivity].
Qed.

Lemma near_zero (u x : Q) : near u x 0 -> x == 0.
Proof.
  unfold near. change (Qabs 0) with 0. intros H.
  assert (E : x - 0 == x) by ring. rewrite E, Qmult_0_l in H.
  apply Qabs_Qle_condition in H. lra.
Qed.

Lemma near_comp (u x q q' : Q) : q == q' -> near u x q -> near u x q'.
Proof. unfold near. intros E H. rewrite <- E. assumption. Qed.

(** What [_volume_ratio] returns on volumes of the signed 64-bit range:
    nothing when the sum of the window is zero, otherwise the rounding of a
    float [x] that is the exact quotient up to the error of three float
    operations. *)
Lemma volume_ratio_float (volumes : list Z) (r w : nat) :
  (1 <= w)%nat ->
  (Nat.max r w <= length volumes)%nat ->
  (Z.of_nat (length volumes) < 2 ^ 63)%Z ->
  Forall (fun v => (- 2 ^ 63 <= v < 2 ^ 63)%Z) volumes ->
  (Zsum (firstn w volumes) = 0%Z -> _volume_ratio volumes r w = Ok None) /\
  (Zsum (firstn w volumes) <> 0%Z ->
   exists x : Q,
     _volume_ratio volumes r w = Ok (Some (Fin (round_half_even x))) /\
     near (2 ^ (-50)) x
       (inject_Z (Zsum (firstn r volumes))
        / (inject_Z (Zsum (firstn w volumes)) / inject_Z (Z.of_nat w)))).
Proof.
  intros Hw Hlen Hsize Hall.
  assert (Hall' : Forall (fun v => (- 2 ^ 63 <= v <= 2 ^ 63)%Z) volumes).
  { eapply Forall_impl; [|exact Hall]. intros v Hv. cbv beta in Hv. lia. }
  pose proof (@Zsum_firstn_bounded (2 ^ 63) r volumes Hall' ltac:(lia)) as HS.
  pose proof (@Zsum_firstn_bounded (2 ^ 63) w volumes Hall' ltac:(lia)) as HT.
  unfold _volume_ratio.
  assert (Hlt : (length volumes <? Nat.max r w)%nat = false)
    by (apply Nat.ltb_ge; lia).
  rewrite Hlt. cbv zeta.
  rewrite statistics_mean_firstn by lia.
  set (T := Zsum (firstn w volumes)) in *.
  set (S := Zsum (firstn r volumes)) in *.
  set (n := Z.of_nat w) in *.
  assert (Hn : (1 <= n < 2 ^ 63)%Z) by (unfold n; lia).
  assert (HS' : (Z.abs S <= 2 ^ 126)%Z).
  { change (2 ^ 126)%Z with (2 ^ 63 * 2 ^ 63)%Z.
    apply Z.le_trans with (Z.of_nat r * 2 ^ 63)%Z; [assumption|].
    apply Z.mul_le_mono_nonneg_r; lia. }
  split.
  - intros HT0. rewrite HT0. rewrite Z.mod_0_l by lia.
    cbn [Z.eqb bind]. rewrite Z.div_0_l by lia. reflexivity.
  - intros HT0.
    destruct (@ratio_magnitude S T n Hn HS' HT HT0) as [Qhi [Qz Qlo]].
    destruct (@mean_magnitude T n Hn HT HT0) as [Mnz [Mlo Mhi]].
    set (M := inject_Z T / inject_Z n) in *.
    set (Q0 := inject_Z S / M) in *.
    assert (U0 : 0 <= 2 ^ (-53)) by discriminate.
    assert (U1 : 2 ^ (-53) <= 1 # 4) by discriminate.
    assert (Qzn : Q0 == 0 \/ 2 ^ (-63) <= Qabs Q0).
    { destruct (Z.eq_dec S 0) as [E | E]; [left | right]; auto. }
    destruct (T mod n =? 0)%Z eqn:Em.
    + (* the mean is an integer *)
      apply Z.eqb_eq in Em.
      assert (ET : T = (n * (T / n))%Z) by (apply Z.div_exact; lia).
      set (z := (T / n)%Z) in *.
      assert (Hz : z <> 0%Z) by (intros E; rewrite E in ET; lia).
      cbn [bind py_is_zero py_truediv].
      assert (Hzb : (z =? 0)%Z = false) by (apply Z.eqb_neq; assumption).
      rewrite Hzb. unfold int_truediv. rewrite Hzb.
      assert (EM : inject_Z z == M).
      { assert (ETq : inject_Z T == inject_Z n * inject_Z z).
        { rewrite <- inject_Z_mult, <- ET. reflexivity. }
        unfold M. rewrite ETq. field.
        intros E. unfold Qeq in E. cbn in E. lia. }
      assert (EQ : inject_Z S / inject_Z z == Q0).
      { unfold Q0. rewrite EM. reflexivity. }
      destruct (@binary64_near (inject_Z S / inject_Z z)) as [x [Hx Nx]].
      { rewrite EQ. apply Qle_lt_trans with (2 ^ 189); [assumption | reflexivity]. }
      { rewrite EQ. destruct Qzn as [Z0 | Z1]; [left; assumption | right].
        apply Qle_trans with (2 ^ (-63)); [discriminate | assumption]. }
      rewrite Hx. cbn [bind num_round2]. exists x. split; [reflexivity|].
      apply near_weaken with (2 ^ (-53)); [discriminate|].
      apply near_comp with (inject_Z S / inject_Z z); assumption.
    + (* the mean is a float *)
      unfold int_truediv at 1.
      assert (Hnb : (n =? 0)%Z = false) by (apply Z.eqb_neq; lia).
      rewrite Hnb. fold M.
      destruct (@binary64_near M) as [b [Hb Nb]].
      { apply Qle_lt_trans with (2 ^ 63); [assumption | reflexivity]. }
      { right. apply Qle_trans with (2 ^ (-63)); [discriminate | assumption]. }
      rewrite Hb. cbn [bind py_is_zero].
      assert (Hbz : ~ b == 0).
      { apply (@near_nonzero (2 ^ (-53)) b M); [reflexivity | assumption..]. }
      assert (Hbb : Qeq_bool b 0 = false).
      { destruct (Qeq_bool b 0) eqn:E; [|reflexivity].
        apply Qeq_bool_iff in E. contradiction. }
      rewrite Hbb. cbn [py_truediv]. unfold float_of_int.
      destruct (@binary64_near (inject_Z S)) as [a [Ha Na]].
      { rewrite Qabs_inject_Z.
        apply Qle_lt_trans with (inject_Z (2 ^ 126));
          [rewrite <- Zle_Qle; assumption | reflexivity]. }
      { destruct (Z.eq_dec S 0) as [E | E]; [left; rewrite E; reflexivity | right].
        rewrite Qabs_inject_Z.
        apply Qle_trans with (inject_Z 1); [discriminate|].
        rewrite <- Zle_Qle. lia. }
      rewrite Ha. cbn [bind]. unfold float_truediv, num_div. rewrite Hbb.
      cbn [bind].
      assert (Nd : near (3 * 2 ^ (-53)) (a / b) Q0).
      { unfold Q0. apply near_div; assumption. }
      destruct (near_bounds (u := 3 * 2 ^ (-53)) ltac:(discriminate)
                  ltac:(discriminate) Nd) as [D1 D2].
      destruct (@binary64_near (a / b)) as [x [Hx Nx]].
      { apply Qle_lt_trans with (2 * Qabs Q0); [assumption|].
        apply Qle_lt_trans with (2 * 2 ^ 189); [lra | reflexivity]. }
      { destruct Qzn as [Z0 | Z1].
        - left. apply (@near_zero (3 * 2 ^ (-53))).
          apply near_comp with Q0; assumption.
        - right. apply Qle_trans with (2 ^ (-63) * (1 # 2)); [discriminate|]. lra. }
      rewrite Hx. cbn [num_round2]. exists x. split; [reflexivity|].
      apply near_weaken
        with (2 ^ (-53) + 3 * 2 ^ (-53) + 2 ^ (-53) * (3 * 2 ^ (-53)));
        [discriminate|].
      apply near_trans with (a / b);
        [discriminate | discriminate | assumption | assumption].
Qed.

(** C7 as stated fails: with a window of zero the function raises, and on
    volumes beyond the range of a float the ratio is an infinity. *)
Lemma volume_ratio_raises_or_overflows :
  (Nat.max 1 0 <= length three_volumes)%nat /\
  _volume_ratio three_volumes 1 0 = Raise StatisticsError /\
  (Nat.max 3 2 <= length huge_volumes)%nat /\
  _volume_ratio huge_volumes 3 2 = Ok (Some PInf).
Proof.
  split; [cbn; lia|]. split; [reflexivity|]. split; [cbn; lia|].
  vm_compute. reflexivity.
Qed.

(** C7, amended: for a window [w >= 1], on fewer than [2 ^ 63] volumes of
    the signed 64-bit range of which there are at least [max r w], the ratio
    is absent when the mean of the [w] most recent volumes is zero;
    otherwise it is [round(x, 2)] for a float [x] that is the sum of the [r]
    most recent volumes over that mean, up to the rounding of the float
    operations (a relative error of at most [2 ^ -50]).  No exception is
    raised and the value is finite. *)
Theorem volume_ratio_guarded (volumes : list Z) (r w : nat) :
  (1 <= w)%nat ->
  (Nat.max r w <= length volumes)%nat ->
  (Z.of_nat (length volumes) < 2 ^ 63)%Z ->
  Forall (fun v => (- 2 ^ 63 <= v < 2 ^ 63)%Z) volumes ->
  let avg := Qmean (map inject_Z (firstn w volumes)) in
  let recent_sum := Qsum (map inject_Z (firstn r volumes)) in
  (avg == 0 -> _volume_ratio volumes r w = Ok None) /\
  (~ avg == 0 ->
   exists x : Q,
     _volume_ratio volumes r w = Ok (Some (Fin (round_half_even x))) /\
     near (2 ^ (-50)) x (recent_sum / avg)) /\
  ~ raises (_volume_ratio volumes r w) /\
  (forall x, _volume_ratio volumes r w = Ok (Some x) -> isfinite x = true).
Proof.
  intros Hw Hlen Hsize Hall avg recent_sum.
  destruct (@volume_ratio_float volumes r w Hw Hlen Hsize Hall) as [Hzero Hval].
  set (T := Zsum (firstn w volumes)) in *.
  set (S := Zsum (firstn r volumes)) in *.
  assert (Nw : ~ inject_Z (Z.of_nat w) == 0).
  { intros E. unfold Qeq in E. cbn in E. lia. }
  assert (Eavg : avg == inject_Z T / inject_Z (Z.of_nat w)).
  { unfold avg, Qmean. rewrite length_map, firstn_length_le by lia.
    rewrite <- inject_Zsum. reflexivity. }
  assert (Esum : recent_sum == inject_Z S).
  { unfold recent_sum. rewrite <- inject_Zsum. reflexivity. }
  assert (Hiff : avg == 0 <-> T = 0%Z).
  { rewrite Eavg. split.
    - intros E.
      assert (E' : inject_Z T == 0).
      { assert (Ef : inject_Z T
                     == inject_Z T / inject_Z (Z.of_nat w) * inject_Z (Z.of_nat w))
          by (field; assumption).
        rewrite Ef, E. ring. }
      unfold Qeq in E'. cbn in E'. lia.
    - intros ->. unfold Qdiv. apply Qmult_0_l. }
  destruct (Z.eq_dec T 0) as [HT | HT].
  - specialize (Hzero HT).
    split; [intros _; assumption|].
    split; [intros NE; exfalso; apply NE, Hiff; assumption|].
    split; [intros [e He]; rewrite Hzero in He; discriminate|].
    intros x Hx. rewrite Hzero in Hx. discriminate.
  - destruct (Hval HT) as [x [Hx Nx]].
    split; [intros E; exfalso; apply HT, Hiff; assumption|].
    split.
    + intros _. exists x. split; [assumption|].
      apply near_comp
        with (inject_Z S / (inject_Z T / inject_Z (Z.of_nat w)));
        [|assumption].
      rewrite Esum, Eavg. reflexivity.
    + split; [intros [e He]; rewrite Hx in He; discriminate|].
      intros y Hy. rewrite Hx in Hy. inversion Hy. reflexivity.
Qed.


(** ** Extraction of the series *)

Lemma present_cons_some {A : Type} (x : A) (l : list (option A)) :
  present (Some x :: l) = x :: present l.
Proof. reflexivity. Qed.

Lemma present_cons_none {A : Type} (l : list (option A)) :
  present (None :: l) = present l.
Proof. reflexivity. Qed.

Lemma price_series_filter (col : row -> option decimal) (rows : list row) :
  price_series col rows = filter nonzero (drop_nulls col rows).
Proof.
  unfold price_series, drop_nulls.
  induction rows as [|r rows IH]; [reflexivity|].
  cbn [map filter]. destruct (col r) as [q|] eqn:E.
  - rewrite present_cons_some. cbn [filter truthy]. fold (nonzero q).
    destruct (nonzero q).
    + rewrite present_cons_some, IH. reflexivity.
    + exact IH.
  - rewrite present_cons_none. cbn [truthy]. exact IH.
Qed.

Lemma volume_series_filter (raws : list sql_row) :
  volume_series (map convert_row raws) =
  filter truthy_int (drop_nulls sql_volume raws).
Proof.
  unfold volume_series, drop_nulls.
  induction raws as [|r raws IH]; [reflexivity|].
  cbn [map filter]. destruct r as [d o h l c [v|]]; cbn [convert_row r_volume sql_volume].
  - rewrite present_cons_some. cbn [filter].
    destruct (truthy_int v); [rewrite IH|]; auto.
  - rewrite present_cons_none. cbn [truthy_int Z.eqb negb]. exact IH.
Qed.

(** C6 as stated fails: a close of zero is present in the bars and is not in
    the extracted series. *)
Lemma series_drops_zero_close :
  price_series r_close zero_close_bars <> drop_nulls r_close zero_close_bars.
Proof. vm_compute. discriminate. Qed.

(** C6, amended: each extracted series is the column with its NULL entries
    and its zero entries dropped, in the order of the bars; a value that is
    present and not zero is kept. *)
Theorem series_drop_null_and_zero :
  (forall (col : row -> option decimal) (rows : list row),
     price_series col rows = filter nonzero (drop_nulls col rows)) /\
  (forall raws : list sql_row,
     volume_series (map convert_row raws) =
     filter truthy_int (drop_nulls sql_volume raws)) /\
  (forall (col : row -> option decimal) (rows : list row) (r : row) (q : decimal),
     In r rows -> col r = Some q -> ~ q == 0 -> In q (price_series col rows)).
Proof.
  split; [|split].
  - apply price_series_filter.
  - apply volume_series_filter.
  - intros col rows r q Hin Hcol Hq. rewrite price_series_filter.
    apply filter_In. split.
    + unfold drop_nulls. clear Hq.
      induction rows as [|r' rows IH]; [contradiction|].
      cbn [map]. destruct Hin as [-> | Hin].
      * rewrite Hcol, present_cons_some. left. reflexivity.
      * destruct (col r'); [rewrite present_cons_some; right|
                            rewrite present_cons_none]; auto.
    + unfold nonzero. destruct (Qeq_bool q 0) eqn:E; [|reflexivity].
      apply Qeq_bool_iff in E. contradiction.
Qed.

(** ** Rolling highs *)

Lemma round_half_even_grid (q : Q) (k : Z) :
  q == k # 100 -> round_half_even q = k # 100.
Proof.
  intros E. unfold round_half_even. f_equal.
  assert (Ex : q * 100 == inject_Z k).
  { rewrite E. unfold Qeq. simpl. lia. }
  unfold cents_half_even. cbv zeta.
  rewrite (Qfloor_comp _ _ Ex), Qfloor_Z.
  destruct (Qlt_le_dec (q * 100 - inject_Z k) (1 # 2)); [reflexivity|lra].
Qed.





Lemma in_since (target_date : date) (lookback : Z) (rows : list row) (r : row) :
  In r (since target_date lookback rows) <-> in_window target_date lookback rows r.
Proof.
  unfold since, in_window. rewrite filter_In, Z.leb_le. reflexivity.
Qed.











(** ** ATR14 *)

Lemma index_nth {A : Type} (d : A) (l : list A) (i : nat) :
  (i < length l)%nat -> index l i = Ok (nth i l d).
Proof.
  intros Hi. unfold index. rewrite (nth_error_nth' l d Hi). reflexivity.
Qed.

(** The True Range loop appends the finite True Ranges of its indices. *)
Lemma tr_loop (H L C : list num) (k a : nat) (acc : list num) :
  (a + k <= length H)%nat -> (a + k <= length L)%nat ->
  (a + k <= length C)%nat ->
  for_each (seq a k) (tr_body H L C) acc =
  Ok (acc ++ filter isfinite
        (map (fun i => true_range (nth i H NaN) (nth i L NaN) (nth (i - 1) C NaN))
             (seq a k))).
Proof.
  revert a acc. induction k as [|k IH]; intros a acc HH HL HC.
  - cbn [seq for_each map filter]. rewrite app_nil_r. reflexivity.
  - cbn [seq for_each map filter]. unfold tr_body at 1.
    rewrite (index_nth NaN H) by lia.
    rewrite (index_nth NaN L) by lia.
    rewrite (index_nth NaN C) by lia.
    cbn [bind]. rewrite IH by lia.
    destruct (isfinite _); [|reflexivity].
    rewrite <- app_assoc. reflexivity.
Qed.

Lemma ranges_from_nth {A : Type} (tr : A -> A -> A -> A) (d : A)
  (H L C : list A) (pc : A) :
  length H = length L -> length L = length C ->
  ranges_from tr pc H L C =
  map (fun j => tr (nth j H d) (nth j L d) (nth j (pc :: C) d))
      (seq 0 (length H)).
Proof.
  revert L C pc. induction H as [|h H IH]; intros L C pc HL HC.
  - reflexivity.
  - destruct L as [|l L]; [discriminate|].
    destruct C as [|c C]; [discriminate|].
    cbn [ranges_from length seq map nth]. f_equal.
    rewrite (IH L C c) by (simpl in *; lia).
    rewrite <- seq_shift, map_map. reflexivity.
Qed.

Lemma ranges_nth {A : Type} (tr : A -> A -> A -> A) (d : A)
  (H L C : list A) :
  length H = length L -> length L = length C ->
  ranges tr H L C =
  map (fun i => tr (nth i H d) (nth i L d) (nth (i - 1) C d))
      (seq 1 (length H - 1)).
Proof.
  intros HL HC. destruct H as [|h H]; [reflexivity|].
  destruct L as [|l L]; [discriminate|].
  destruct C as [|c C]; [discriminate|].
  cbn [ranges length]. rewrite Nat.sub_succ, Nat.sub_0_r.
  rewrite (ranges_from_nth tr d) by (simpl in *; lia).
  rewrite <- seq_shift, map_map. apply map_ext. intros j.
  cbn [nth]. rewrite Nat.sub_succ, Nat.sub_0_r. reflexivity.
Qed.

Lemma filter_finite_values (l : list num) :
  filter isfinite l = map Fin (finite_values l).
Proof.
  unfold finite_values. induction l as [|x l IH]; [reflexivity|].
  cbn [filter map]. destruct x; cbn [isfinite].
  - rewrite present_cons_some. cbn [map]. rewrite IH. reflexivity.
  - rewrite present_cons_none. exact IH.
  - rewrite present_cons_none. exact IH.
  - rewrite present_cons_none. exact IH.
Qed.

Lemma fold_num_add_fin (l : list Q) (a : Q) :
  fold_left num_add (map Fin l) (Fin a) = Fin (fold_left Qplus l a).
Proof.
  revert a. induction l as [|x l IH]; intros a; [reflexivity|].
  cbn [map fold_left num_add]. apply IH.
Qed.

Lemma fold_Qplus_sum (l : list Q) (a : Q) :
  fold_left Qplus l a == a + Qsum l.
Proof.
  revert a. induction l as [|x l IH]; intros a; simpl.
  - lra.
  - rewrite IH. lra.
Qed.

(** The smoothing loop is a fold over the values at its indices. *)
Lemma wilder_loop (trs : list Q) (k a : nat) (x : Q) :
  (a + k <= length trs)%nat ->
  for_each (seq a k) (wilder_body (map Fin trs)) (Fin x) =
  Ok (Fin (fold_left smooth (firstn k (skipn a trs)) x)).
Proof.
  revert a x. induction k as [|k IH]; intros a x Hk; [reflexivity|].
  cbn [seq for_each]. unfold wilder_body at 1.
  rewrite (index_nth NaN) by (rewrite length_map; lia).
  rewrite (skipn_cons_nth 0 trs) by lia.
  cbn [firstn fold_left].
  rewrite <- (IH (S a) (smooth x (nth a trs 0))) by lia.
  replace (nth a (map Fin trs) NaN) with (Fin (nth a trs 0)).
  - reflexivity.
  - rewrite (nth_indep (map Fin trs) NaN (Fin 0)) by (rewrite length_map; lia).
    symmetry. apply map_nth.
Qed.

Lemma fold_smooth_comp (l : list Q) (x y : Q) :
  x == y -> fold_left smooth l x == fold_left smooth l y.
Proof.
  revert x y. induction l as [|t l IH]; intros x y E; [exact E|].
  cbn [fold_left]. apply IH. unfold smooth. rewrite E. reflexivity.
Qed.

(** What [_atr14] computes on series of one length: the non-finite True
    Ranges are dropped, and the finite ones are seeded and smoothed. *)
Lemma atr14_value (highs lows closes : list num) :
  length highs = length lows -> length lows = length closes ->
  (15 <= length closes)%nat ->
  _atr14 highs lows closes =
  let trs := finite_values (ranges true_range (rev highs) (rev lows) (rev closes)) in
  if (length trs <? 14)%nat then Ok None
  else Ok (Some (Fin (round_half_even (wilder trs)))).
Proof.
  intros HL HC Hn. unfold _atr14. cbv zeta.
  rewrite !length_rev.
  replace (Nat.min (length highs) (Nat.min (length lows) (length closes)))
    with (length closes) by lia.
  assert (Hlt : (length closes <? 15)%nat = false) by (apply Nat.ltb_ge; lia).
  rewrite Hlt. unfold range.
  rewrite tr_loop by (rewrite length_rev; lia).
  cbn [bind app].
  rewrite (ranges_nth true_range NaN) by (rewrite !length_rev; lia).
  rewrite length_rev.
  replace (length highs - 1)%nat with (length closes - 1)%nat by lia.
  set (TR := map _ (seq 1 (length closes - 1))).
  rewrite filter_finite_values. set (trs := finite_values TR).
  rewrite length_map.
  destruct (length trs <? 14)%nat eqn:E14; [reflexivity|].
  apply Nat.ltb_ge in E14.
  rewrite firstn_map. unfold py_sum. rewrite fold_num_add_fin.
  unfold num_div at 1. change (Qeq_bool 14 0) with false. cbn [bind].
  rewrite wilder_loop by lia. cbn [bind num_round2].
  do 3 f_equal. apply round_half_even_comp.
  rewrite firstn_all2 by (rewrite length_skipn; lia).
  unfold wilder. apply fold_smooth_comp.
  rewrite fold_Qplus_sum. unfold Qmean.
  rewrite firstn_length_le by lia.
  change (inject_Z (Z.of_nat 14)) with 14. field.
Qed.

Lemma Qmax_pick (a b : Q) : (if negb (Qle_bool b a) then b else a) = Qmax a b.
Proof.
  unfold Qmax, GenericMinMax.gmax.
  destruct (Qle_bool b a) eqn:E; cbn [negb].
  - apply Qle_bool_iff in E.
    destruct (a ?= b) eqn:Ec; try reflexivity.
    apply Qlt_alt in Ec. lra.
  - destruct (a ?= b) eqn:Ec; try reflexivity; exfalso.
    + apply Qeq_alt in Ec.
      assert (H : Qle_bool b a = true) by (apply Qle_bool_iff; lra).
      congruence.
    + apply Qgt_alt in Ec.
      assert (H : Qle_bool b a = true) by (apply Qle_bool_iff; lra).
      congruence.
Qed.

Lemma true_range_fin (h l pc : Q) :
  true_range (Fin h) (Fin l) (Fin pc) = Fin (Qtrue_range h l pc).
Proof.
  unfold true_range, Qtrue_range, py_max3.
  cbn [num_sub num_neg num_add num_abs num_gt].
  fold (h - l) (h - pc) (l - pc).
  rewrite <- !Qmax_pick.
  destruct (negb (Qle_bool (Qabs (h - pc)) (h - l)));
    cbn [num_gt]; destruct (negb (Qle_bool _ _)); reflexivity.
Qed.

Lemma ranges_from_fin (H L C : list Q) (pc : Q) :
  ranges_from true_range (Fin pc) (map Fin H) (map Fin L) (map Fin C) =
  map Fin (ranges_from Qtrue_range pc H L C).
Proof.
  revert L C pc. induction H as [|h H IH]; intros L C pc; [reflexivity|].
  destruct L as [|l L]; [reflexivity|].
  destruct C as [|c C]; [reflexivity|].
  cbn [map ranges_from]. rewrite true_range_fin, IH. reflexivity.
Qed.

Lemma ranges_fin (H L C : list Q) :
  ranges true_range (map Fin H) (map Fin L) (map Fin C) =
  map Fin (ranges Qtrue_range H L C).
Proof.
  destruct H as [|h H]; [reflexivity|].
  destruct L as [|l L]; [reflexivity|].
  destruct C as [|c C]; [reflexivity|].
  cbn [map ranges]. apply ranges_from_fin.
Qed.

Lemma finite_values_fin (l : list Q) : finite_values (map Fin l) = l.
Proof.
  unfold finite_values. induction l as [|x l IH]; [reflexivity|].
  cbn [map]. rewrite present_cons_some, IH. reflexivity.
Qed.

Lemma ranges_from_length {A : Type} (tr : A -> A -> A -> A) (H L C : list A)
  (pc : A) :
  length H = length L -> length L = length C ->
  length (ranges_from tr pc H L C) = length H.
Proof.
  intros HL HC. rewrite (ranges_from_nth tr pc) by assumption.
  rewrite length_map, length_seq. reflexivity.
Qed.

Lemma ranges_length {A : Type} (tr : A -> A -> A -> A) (H L C : list A) :
  length H = length L -> length L = length C ->
  length (ranges tr H L C) = (length H - 1)%nat.
Proof.
  intros HL HC. destruct H as [|h H]; [reflexivity|].
  destruct L as [|l L]; [discriminate|].
  destruct C as [|c C]; [discriminate|].
  cbn [ranges length]. rewrite Nat.sub_succ, Nat.sub_0_r.
  apply ranges_from_length; simpl in *; lia.
Qed.

Lemma atr14_short (highs lows closes : list num) :
  (Nat.min (length highs) (Nat.min (length lows) (length closes)) < 15)%nat ->
  _atr14 highs lows closes = Ok None.
Proof.
  intros Hn. unfold _atr14. cbv zeta. rewrite !length_rev.
  apply Nat.ltb_lt in Hn. rewrite Hn. reflexivity.
Qed.




(** ** Batches *)

Lemma chunks_fuel_nil {A : Type} (fuel n : nat) :
  chunks_fuel fuel n (@nil A) = [].
Proof. destruct fuel; reflexivity. Qed.

Lemma chunks_fuel_enough {A : Type} (n : nat) (f f' : nat) (l : list A) :
  (1 <= n)%nat -> (length l <= f)%nat -> (length l <= f')%nat ->
  chunks_fuel f n l = chunks_fuel f' n l.
Proof.
  intros Hn. revert f' l. induction f as [|f IH]; intros f' l Hf Hf'.
  - destruct l; [|simpl in Hf; lia]. rewrite !chunks_fuel_nil. reflexivity.
  - destruct l as [|x l]; [rewrite !chunks_fuel_nil; reflexivity|].
    destruct f' as [|f']; [simpl in Hf'; lia|].
    cbn [chunks_fuel]. f_equal.
    apply IH; rewrite length_skipn; cbn [length] in *; lia.
Qed.

Lemma chunks_nil {A : Type} (n : nat) : chunks n (@nil A) = [].
Proof. reflexivity. Qed.

(** A non-empty list of at most [n] elements is one batch. *)
Lemma chunks_short {A : Type} (n : nat) (l : list A) :
  l <> [] -> (length l <= n)%nat -> chunks n l = [l].
Proof.
  intros Hne Hlen. destruct l as [|x l]; [contradiction|].
  unfold chunks. cbn [length chunks_fuel].
  rewrite firstn_all2 by assumption.
  rewrite skipn_all2 by assumption.
  rewrite chunks_fuel_nil. reflexivity.
Qed.

(** A full batch in front is the first batch. *)
Lemma chunks_full {A : Type} (n : nat) (b l : list A) :
  (1 <= n)%nat -> length b = n -> chunks n (b ++ l) = b :: chunks n l.
Proof.
  intros Hn Hb. unfold chunks.
  destruct b as [|x b]; [simpl in Hb; lia|].
  cbn [app length chunks_fuel].
  change (x :: b ++ l) with ((x :: b) ++ l).
  rewrite firstn_app, skipn_app, Hb, Nat.sub_diag.
  rewrite <- Hb at 1 3. rewrite firstn_all, skipn_all.
  cbn [firstn skipn app]. rewrite app_nil_r. f_equal.
  apply chunks_fuel_enough; [assumption| |lia].
  rewrite length_app. lia.
Qed.

Lemma chunks_concat {A : Type} (n : nat) (l : list A) :
  (1 <= n)%nat -> concat (chunks n l) = l.
Proof.
  intros Hn. unfold chunks.
  assert (H : forall f (l : list A),
             (length l <= f)%nat -> concat (chunks_fuel f n l) = l).
  { induction f as [|f IH]; intros l0 Hf.
    - destruct l0; [reflexivity | simpl in Hf; lia].
    - destruct l0 as [|x l0]; [reflexivity|].
      cbn [chunks_fuel concat]. rewrite IH.
      + apply firstn_skipn.
      + rewrite length_skipn. cbn [length] in *. lia. }
  apply H. lia.
Qed.

(** Every batch holds between 1 and [n] records. *)
Lemma chunks_sizes {A : Type} (n : nat) (l : list A) :
  (1 <= n)%nat ->
  Forall (fun b => (1 <= length b <= n)%nat) (chunks n l).
Proof.
  intros Hn. unfold chunks. generalize (length l) as f. intros f. revert l.
  induction f as [|f IH]; intros l; [constructor|].
  destruct l as [|x l]; [constructor|].
  cbn [chunks_fuel]. constructor; [|apply IH].
  rewrite length_firstn. cbn [length]. lia.
Qed.

(** Every batch that is followed by another one is full. *)
Lemma chunks_full_before_last {A : Type} (n : nat) (l : list A)
  (pre post : list (list A)) (b : list A) :
  (1 <= n)%nat -> chunks n l = pre ++ b :: post -> post <> [] ->
  length b = n.
Proof.
  intros Hn. unfold chunks. generalize (length l) as f. intros f.
  revert l pre. induction f as [|f IH]; intros l pre Hc Hpost.
  - destruct pre; discriminate Hc.
  - destruct l as [|x l]; [destruct pre; discriminate Hc|].
    cbn [chunks_fuel] in Hc. destruct pre as [|p pre].
    + cbn [app] in Hc. inversion Hc as [[Hb Hrest]].
      destruct (skipn n (x :: l)) as [|y rest] eqn:Hskip.
      * rewrite chunks_fuel_nil in Hrest. symmetry in Hrest. contradiction.
      * assert (Hlen : (n < length (x :: l))%nat).
        { apply (f_equal (@length A)) in Hskip.
          rewrite length_skipn in Hskip. cbn [length] in *. lia. }
        rewrite length_firstn. lia.
    + cbn [app] in Hc. inversion Hc as [[Hp Hrest]].
      apply (IH _ _ Hrest Hpost).
Qed.

(** ** The per-symbol calculator and the batch driver *)

Section EngineProperties.

Variables W Sink : Type.
Variable sql_max_date : W -> res (option date) * W.
Variable sql_symbols : W -> res (list symbol) * W.
Variable sql_history : symbol -> nat -> W -> res (list sql_row) * W.
Variable sql_upsert : list indicator_record -> Sink -> res Z * Sink.

Lemma except_any_ok {St A : Type} (m : M St A) (d : A) (s : St) :
  exists a s', except_any m d s = (Ok a, s').
Proof.
  unfold except_any. destruct (m s) as [[a | e] s']; eauto.
Qed.

(** The per-symbol calculator raises nothing. *)
Lemma calculate_for_symbol_ok (sym : symbol) (target_date : date) (w : W) :
  exists r w', calculate_for_symbol sql_history sym target_date w = (Ok r, w').
Proof. apply except_any_ok. Qed.

(** C5: when the 250-bar query gives fewer than 200 bars, or fails, the
    per-symbol calculator gives no record and raises nothing, and the
    store is left as that one query left it: no other query is made. *)
Theorem insufficient_history_gives_no_record (sym : symbol)
  (target_date : date) (w w' : W) (outcome : res (list sql_row)) :
  sql_history sym 250 w = (outcome, w') ->
  match outcome with
  | Ok bars => (length bars < 200)%nat
  | Raise _ => True
  end ->
  calculate_for_symbol sql_history sym target_date w = (Ok None, w').
Proof.
  intros Hq Hshort.
  unfold calculate_for_symbol, except_any, calculate_body, bindM at 1.
  unfold get_price_history, except_mysql, bindM at 1. rewrite Hq.
  destruct outcome as [bars | e].
  - cbn [ret]. rewrite length_map.
    apply Nat.ltb_lt in Hshort. rewrite Hshort. reflexivity.
  - destruct e; reflexivity.
Qed.

(** [_calculate_highs] is the rolling high over 365 and over 182 days, on
    the 420-bar history put in chronological order. *)
Lemma calculate_highs_rolling (sym : symbol) (target_date : date) (w w' : W)
  (rows : list row) :
  get_price_history sql_history sym 420 w = (Ok rows, w') ->
  rows <> [] ->
  _calculate_highs sql_history sym target_date w =
  (Ok (fst (rolling_high 365 target_date (rev rows)),
       snd (rolling_high 365 target_date (rev rows)),
       fst (rolling_high 182 target_date (rev rows)),
       snd (rolling_high 182 target_date (rev rows))), w').
Proof.
  intros Hq Hne. unfold _calculate_highs, bindM. rewrite Hq.
  destruct rows as [|r rows]; [contradiction|].
  destruct (rolling_high 365 target_date (rev (r :: rows))).
  destruct (rolling_high 182 target_date (rev (r :: rows))).
  reflexivity.
Qed.

Lemma bindM_ok {St A B : Type} (m : M St A) (f : A -> M St B)
  (s s' : St) (a : A) :
  m s = (Ok a, s') -> bindM m f s = f a s'.
Proof. intros H. unfold bindM. rewrite H. reflexivity. Qed.

Lemma bindM_ret {St A B : Type} (a : A) (f : A -> M St B) (s : St) :
  bindM (ret a) f s = f a s.
Proof. reflexivity. Qed.

Lemma bindM_assoc {St A B C : Type} (m : M St A) (f : A -> M St B)
  (g : B -> M St C) (s : St) :
  bindM (bindM m f) g s = bindM m (fun a => bindM (f a) g) s.
Proof.
  unfold bindM. destruct (m s) as [[a | e] s']; reflexivity.
Qed.

Lemma on_store_run {A : Type} (q : M W A) (w w' : W) (k : Sink) (r : res A) :
  q w = (r, w') -> on_store q (w, k) = (r, (w', k)).
Proof. intros H. unfold on_store. cbn [fst snd]. rewrite H. reflexivity. Qed.

Lemma on_sink_run {A : Type} (q : M Sink A) (w : W) (k k' : Sink) (r : res A) :
  q k = (r, k') -> on_sink q (w, k) = (r, (w, k')).
Proof. intros H. unfold on_sink. cbn [fst snd]. rewrite H. reflexivity. Qed.

Lemma collect_records_ok (target_date : date) (symbols : list symbol) (w : W) :
  exists recs w',
    collect_records sql_history symbols target_date w = (Ok recs, w').
Proof.
  revert w. induction symbols as [|sym rest IH]; intros w.
  - exists [], w. reflexivity.
  - destruct (calculate_for_symbol_ok sym target_date w) as [r [w1 Hr]].
    destruct (IH w1) as [recs [w' Hrest]].
    cbn [collect_records].
    rewrite (bindM_ok _ _ _ Hr), (bindM_ok _ _ _ Hrest).
    unfold ret. eauto.
Qed.

Section Driver.

(** The upsert fails with the connector's errors only. *)
Hypothesis upsert_errors :
  forall data k e k', sql_upsert data k = (Raise e, k') -> e = MySQLError.

Variable batch_size : nat.
Hypothesis batch_size_pos : (1 <= batch_size)%nat.
Variable target_date : date.

Lemma batch_insert_ok (data : list indicator_record) (k : Sink) :
  exists n k', batch_insert_indicators sql_upsert data k = (Ok n, k').
Proof.
  destruct data as [|x data]; [exists 0%Z, k; reflexivity|].
  cbn [batch_insert_indicators]. unfold except_mysql.
  destruct (sql_upsert (x :: data) k) as [[n | e] k'] eqn:E; [eauto|].
  apply upsert_errors in E. subst e. eauto.
Qed.

Lemma flush_batches_cons (b : list indicator_record)
  (rest : list (list indicator_record)) (k k' : Sink) (r : Z) :
  flush_batches sql_upsert (b :: rest) k = (Ok r, k') ->
  exists written k1 more,
    batch_insert_indicators sql_upsert b k = (Ok written, k1) /\
    flush_batches sql_upsert rest k1 = (Ok more, k') /\
    r = (written + more)%Z.
Proof.
  cbn [flush_batches]. intros H.
  destruct (batch_insert_ok b k) as [written [k1 Hb]].
  rewrite (bindM_ok _ _ _ Hb) in H.
  unfold bindM in H.
  destruct (flush_batches sql_upsert rest k1) as [[more | e] k2] eqn:Hrest;
    [|discriminate].
  inversion H; subst. exists written, k1, more. auto.
Qed.

Lemma flush_batches_ok (batches : list (list indicator_record)) (k : Sink) :
  exists total k', flush_batches sql_upsert batches k = (Ok total, k').
Proof.
  revert k. induction batches as [|b rest IH]; intros k.
  - exists 0%Z, k. reflexivity.
  - destruct (batch_insert_ok b k) as [written [k1 Hb]].
    destruct (IH k1) as [more [k' Hrest]].
    cbn [flush_batches].
    rewrite (bindM_ok _ _ _ Hb), (bindM_ok _ _ _ Hrest).
    unfold ret. eauto.
Qed.

(** The loop and the final write, from a buffer that is not full: the
    records still to come are appended to the buffer, and the whole is
    written batch by batch. *)
Lemma driver_loop (symbols : list symbol) :
  forall (batch : list indicator_record) (total : Z) (w w' : W)
         (k k' : Sink) (recs : list indicator_record) (r : Z),
    (length batch < batch_size)%nat ->
    collect_records sql_history symbols target_date w = (Ok recs, w') ->
    flush_batches sql_upsert (chunks batch_size (batch ++ recs)) k
    = (Ok r, k') ->
    bindM (for_eachM symbols
             (driver_step sql_history sql_upsert batch_size target_date)
             (batch, total))
          (write_remaining sql_upsert) (w, k)
    = (Ok (total + r)%Z, (w', k')).
Proof.
  induction symbols as [|sym rest IH];
    intros batch total w w' k k' recs r Hbatch Hcollect Hflush.
  - cbn [collect_records] in Hcollect. inversion Hcollect; subst.
    rewrite app_nil_r in Hflush.
    cbn [for_eachM]. rewrite bindM_ret.
    unfold write_remaining. destruct batch as [|x batch].
    + rewrite chunks_nil in Hflush. inversion Hflush; subst.
      unfold ret. rewrite Z.add_0_r. reflexivity.
    + rewrite chunks_short in Hflush by (try discriminate; lia).
      apply flush_batches_cons in Hflush.
      destruct Hflush as [written [k1 [more [Hb [Hrest ->]]]]].
      inversion Hrest; subst.
      rewrite (bindM_ok _ _ _ (on_sink_run _ w' _ Hb)).
      unfold ret. rewrite Z.add_0_r. reflexivity.
  - cbn [collect_records] in Hcollect.
    destruct (calculate_for_symbol_ok sym target_date w) as [res [w1 Hres]].
    rewrite (bindM_ok _ _ _ Hres) in Hcollect.
    destruct (collect_records_ok target_date rest w1) as [recs1 [w2 Hrest]].
    rewrite (bindM_ok _ _ _ Hrest) in Hcollect.
    inversion Hcollect; subst. clear Hcollect.
    cbn [for_eachM]. rewrite bindM_assoc.
    unfold driver_step at 1.
    rewrite (bindM_assoc (on_store _)).
    rewrite (bindM_ok _ _ _ (on_store_run _ _ k Hres)).
    destruct res as [x|].
    + destruct (batch_size <=? length (batch ++ [x]))%nat eqn:Efull.
      * apply Nat.leb_le in Efull.
        assert (Hlen : length (batch ++ [x]) = batch_size).
        { rewrite length_app in *. cbn [length] in *. lia. }
        replace (batch ++ x :: recs1) with ((batch ++ [x]) ++ recs1)
          in Hflush by (rewrite <- app_assoc; reflexivity).
        rewrite chunks_full in Hflush by assumption.
        apply flush_batches_cons in Hflush.
        destruct Hflush as [written [k1 [more [Hb [Hmore ->]]]]].
        rewrite bindM_assoc.
        rewrite (bindM_ok _ _ _ (on_sink_run _ w1 _ Hb)).
        rewrite bindM_ret.
        rewrite (IH [] (total + written)%Z w1 w' k1 k' recs1 more);
          [rewrite Z.add_assoc; reflexivity | cbn [length]; lia
          | assumption | assumption].
      * apply Nat.leb_gt in Efull.
        rewrite bindM_ret.
        apply IH with (recs := recs1); [assumption | assumption|].
        rewrite <- app_assoc. assumption.
    + assert (Efull : (batch_size <=? length batch)%nat = false)
        by (apply Nat.leb_gt; assumption).
      rewrite Efull.
      rewrite bindM_ret.
      apply IH with (recs := recs1); assumption.
Qed.

End Driver.

(** C9: once the date and the symbols are resolved, the batch driver
    gathers the records of the symbols that yield one, writes them to the
    sink in batches of [batch_size] with the remainder last, and returns
    the total of the row counts the writes report. *)
Theorem batch_driver_flushes_batches (batch_size : nat) (w w1 w2 : W)
  (k : Sink) (target_date : date) (symbols : list symbol) :
  (1 <= batch_size)%nat ->
  (forall data k0 e k1, sql_upsert data k0 = (Raise e, k1) -> e = MySQLError) ->
  get_latest_date sql_max_date w = (Ok (Some target_date), w1) ->
  get_all_symbols sql_symbols w1 = (Ok symbols, w2) ->
  process_all_symbols sql_max_date sql_symbols sql_history sql_upsert
    batch_size (w, k)
  = (recs <~ on_store (collect_records sql_history symbols target_date) ;;
     on_sink (flush_batches sql_upsert (chunks batch_size recs))) (w2, k).
Proof.
  intros Hbs Hsink Hdate Hsyms.
  destruct (collect_records_ok target_date symbols w2) as [recs [w3 Hrecs]].
  rewrite (bindM_ok _ _ _ (on_store_run _ _ k Hrecs)).
  destruct (flush_batches_ok Hsink (chunks batch_size recs) k) as [r [k' Hr]].
  rewrite (on_sink_run _ w3 _ Hr).
  unfold process_all_symbols, except_any, process_body.
  rewrite (bindM_ok _ _ _ (on_store_run _ _ k Hdate)).
  rewrite (bindM_ok _ _ _ (on_store_run _ _ k Hsyms)).
  destruct symbols as [|sym rest].
  - cbn [collect_records] in Hrecs. inversion Hrecs; subst.
    rewrite chunks_nil in Hr. inversion Hr; subst. reflexivity.
  - change (fun acc : list indicator_record * Z =>
              write_remaining sql_upsert acc)
      with (write_remaining (W := W) sql_upsert).
    rewrite (@driver_loop Hsink batch_size Hbs target_date (sym :: rest)
               [] 0%Z w2 w3 k k' recs r);
      [reflexivity | cbn [length]; lia | assumption | assumption].
Qed.

End EngineProperties.

(** ** The theorems at sample inputs *)

Lemma sma_rounded_mean_witness :
  (1 <= 2 <= length three_closes)%nat /\
  (exists c : Z,
     is_half_up_cents (Qmean (firstn 2 three_closes)) c /\
     _sma (map Some three_closes) 2 = Ok (Some (c # 100))) /\
  (length three_closes < 4)%nat /\
  _sma (map Some three_closes) 4 = Ok None.
Proof.
  assert (H2 : (1 <= 2 <= length three_closes)%nat) by (cbn; lia).
  assert (H4 : (length three_closes < 4)%nat) by (cbn; lia).
  split; [exact H2|].
  split; [exact (proj1 (sma_rounded_mean three_closes 2) H2)|].
  split; [exact H4|].
  exact (proj2 (sma_rounded_mean three_closes 4) H4).
Defined.

Lemma sma_prev_is_sma_of_tail_witness :
  (1 <= 2)%nat /\
  _sma_prev holed_closes 2 = _sma (skipn 1 holed_closes) 2 /\
  (length holed_closes < 3 + 1)%nat /\
  _sma_prev holed_closes 3 = Ok None.
Proof.
  assert (H2 : (1 <= 2)%nat) by lia.
  assert (H3 : (1 <= 3)%nat) by lia.
  assert (Hs : (length holed_closes < 3 + 1)%nat) by (cbn; lia).
  split; [exact H2|].
  split; [exact (proj1 (sma_prev_is_sma_of_tail holed_closes H2))|].
  split; [exact Hs|].
  exact (proj2 (proj2 (sma_prev_is_sma_of_tail holed_closes H3)) Hs).
Defined.

Lemma sma_none_counts_as_zero_witness :
  (1 <= 2)%nat /\ (2 <= length holed_closes)%nat /\
  (2 + 1 <= length holed_closes)%nat /\
  _sma holed_closes 2 = _sma (none_as_zero holed_closes) 2 /\
  _sma_prev holed_closes 2 = _sma_prev (none_as_zero holed_closes) 2.
Proof.
  assert (H1 : (1 <= 2)%nat) by lia.
  assert (H2 : (2 <= length holed_closes)%nat) by (cbn; lia).
  assert (H3 : (2 + 1 <= length holed_closes)%nat) by (cbn; lia).
  split; [exact H1|]. split; [exact H2|]. split; [exact H3|].
  split.
  - exact (proj2 (proj1 (sma_none_counts_as_zero holed_closes H1) H2)).
  - exact (proj2 (proj2 (sma_none_counts_as_zero holed_closes H1) H3)).
Defined.

Lemma volume_ratio_guarded_witness :
  (1 <= 3)%nat /\ (Nat.max 1 3 <= length three_volumes)%nat /\
  (Z.of_nat (length three_volumes) < 2 ^ 63)%Z /\
  Forall (fun v => (- 2 ^ 63 <= v < 2 ^ 63)%Z) three_volumes /\
  ~ raises (_volume_ratio three_volumes 1 3).
Proof.
  assert (H1 : (1 <= 3)%nat) by lia.
  assert (H2 : (Nat.max 1 3 <= length three_volumes)%nat) by (cbn; lia).
  assert (H3 : (Z.of_nat (length three_volumes) < 2 ^ 63)%Z) by (cbn; lia).
  assert (H4 : Forall (fun v => (- 2 ^ 63 <= v < 2 ^ 63)%Z) three_volumes)
    by (repeat constructor; lia).
  split; [exact H1|]. split; [exact H2|]. split; [exact H3|].
  split; [exact H4|].
  exact (proj1 (proj2 (proj2
           (@volume_ratio_guarded three_volumes 1 3 H1 H2 H3 H4)))).
Defined.



Lemma series_drop_null_and_zero_witness :
  In (Row 19%Z (Some 7) (Some 8) (Some 6) (Some 7) 9%Z) zero_close_bars /\
  ~ 7 == 0 /\
  In 7 (price_series r_close zero_close_bars).
Proof.
  assert (H1 : In (Row 19%Z (Some 7) (Some 8) (Some 6) (Some 7) 9%Z)
                 zero_close_bars) by (right; left; reflexivity).
  assert (H2 : ~ 7 == 0) by (intros E; discriminate E).
  split; [exact H1|]. split; [exact H2|].
  exact (proj2 (proj2 series_drop_null_and_zero) r_close zero_close_bars
           _ 7 H1 eq_refl H2).
Defined.


Lemma insufficient_history_gives_no_record_witness :
  logged_history 199 Tickers.AAA 250 [] =
  (Ok (repeat flat_bar 199), [(Tickers.AAA, 250%nat)]) /\
  (length (repeat flat_bar 199) < 200)%nat /\
  calculate_for_symbol (logged_history 199) Tickers.AAA 1%Z [] =
  (Ok None, [(Tickers.AAA, 250%nat)]).
Proof.
  assert (H1 : logged_history 199 Tickers.AAA 250 [] =
               (Ok (repeat flat_bar 199), [(Tickers.AAA, 250%nat)]))
    by reflexivity.
  assert (H2 : (length (repeat flat_bar 199) < 200)%nat)
    by (rewrite repeat_length; lia).
  split; [exact H1|]. split; [exact H2|].
  exact (insufficient_history_gives_no_record (logged_history 199)
           Tickers.AAA 1%Z [] H1 H2).
Defined.

Lemma batch_driver_flushes_batches_witness :
  (1 <= 2)%nat /\
  (forall data k0 e k1, logged_upsert data k0 = (Raise e, k1) -> e = MySQLError) /\
  get_latest_date fixed_date [] = (Ok (Some 1%Z), []) /\
  get_all_symbols three_symbols [] =
  (Ok [Tickers.AAA; Tickers.BBB; Tickers.CCC], []) /\
  process_all_symbols fixed_date three_symbols (logged_history 200)
    logged_upsert 2 ([], [])
  = (recs <~ on_store (collect_records (logged_history 200)
                         [Tickers.AAA; Tickers.BBB; Tickers.CCC] 1%Z) ;;
     on_sink (flush_batches logged_upsert (chunks 2 recs))) ([], []).
Proof.
  assert (H1 : (1 <= 2)%nat) by lia.
  assert (H2 : forall data k0 e k1,
             logged_upsert data k0 = (Raise e, k1) -> e = MySQLError)
    by (intros data k0 e k1 E; discriminate E).
  assert (H3 : get_latest_date fixed_date [] = (Ok (Some 1%Z), []))
    by reflexivity.
  assert (H4 : get_all_symbols three_symbols [] =
               (Ok [Tickers.AAA; Tickers.BBB; Tickers.CCC], []))
    by reflexivity.
  split; [exact H1|]. split; [exact H2|]. split; [exact H3|].
  split; [exact H4|].
  exact (@batch_driver_flushes_batches _ _ fixed_date three_symbols
           (logged_history 200) logged_upsert 2 [] [] [] [] 1%Z
           [Tickers.AAA; Tickers.BBB; Tickers.CCC] H1 H2 H3 H4).
Defined.

(** ** Runs on the sample store *)

(** Three symbols with 200 bars each and a batch size of 2: a batch of two
    records, then the remaining one, three rows in all; each symbol costs one
    250-bar and one 420-bar query. *)
Example driver_run :
  let '(total, (log, written)) :=
    process_all_symbols fixed_date three_symbols (logged_history 200)
      logged_upsert 2 ([], []) in
  total = Ok 3%Z /\
  map (@length _) written = [2; 1]%nat /\
  map snd log = [250; 420; 250; 420; 250; 420]%nat.
Proof. vm_compute. repeat split. Qed.

(** On 200 flat bars the averages are the close, the ATR is the day's
    range and the highs are the close. *)
Example flat_record :
  match fst (calculate_for_symbol (logged_history 200) Tickers.AAA 1%Z []) with
  | Ok (Some r) =>
      sma5 r = Some (10000 # 100) /\ sma200 r = Some (10000 # 100) /\
      sma200s1 r = None /\ atr14 r = Some (Fin (200 # 100)) /\
      a130 r = Some (Fin (100 # 100)) /\ a260 r = Some (Fin (200 # 100)) /\
      ftwh r = Some (Fin (10000 # 100))
  | _ => False
  end.
Proof. vm_compute. repeat split. Qed.

(** ATR14 depends on the order of the bars: the same bars fed oldest first
    give another value. *)
Example atr14_order_matters :
  _atr14 (map Fin widening_highs) (map Fin widening_lows)
    (map Fin widening_closes) = Ok (Some (Fin (1296 # 100))) /\
  _atr14 (map Fin (rev widening_highs)) (map Fin (rev widening_lows))
    (map Fin (rev widening_closes)) = Ok (Some (Fin (1404 # 100))).
Proof. split; vm_compute; reflexivity. Qed.

(** A window of zero is outside the domain of the averages: the division
    of zero by zero raises. *)
Example window_zero_raises :
  _sma [Some 1] 0 = Raise InvalidOperation /\
  _sma_prev [Some 1; Some 2] 0 = Raise InvalidOperation.
Proof. repeat split. Qed.

(** The quotient is rounded as a float: 107 / 40 is the float just below
    2.675, which rounds to 2.67, and 1 / 3 rounds to 0.33. *)
Example volume_ratio_rounds_the_float :
  _volume_ratio [107; 6; 7]%Z 1 3 = Ok (Some (Fin (267 # 100))) /\
  _volume_ratio [1; 1; 4]%Z 1 2 = Ok (Some (Fin (100 # 100))) /\
  _volume_ratio [1; 2; 3]%Z 1 2 = Ok (Some (Fin (67 # 100))).
Proof. repeat split. Qed.

(** Half a hundredth rounds away from zero in the averages. *)
Example sma_rounds_half_up :
  _sma [Some (1 # 200)] 1 = Ok (Some (1 # 100)) /\
  _sma [Some (-1 # 200)] 1 = Ok (Some (-1 # 100)) /\
  _sma (map Some three_closes) 2 = Ok (Some (150 # 100)).
Proof. repeat split. Qed.

(** * Further properties *)

(** ** Rounding is monotone *)

Lemma Zle_of_Qlt_succ (a b : Z) : inject_Z a < inject_Z b + 1 -> (a <= b)%Z.
Proof.
  intros H. rewrite <- inject_Z_succ in H. rewrite <- Zlt_Qlt in H. lia.
Qed.

Lemma cents_half_up_bounds (q : Q) :
  q * 100 - (1 # 2) <= inject_Z (cents_half_up q) /\
  inject_Z (cents_half_up q) <= q * 100 + (1 # 2) /\
  (q * 100 - (1 # 2) < inject_Z (cents_half_up q) \/
   inject_Z (cents_half_up q) < q * 100 + (1 # 2)).
Proof.
  destruct (cents_half_up_spec q) as [Hp Hn].
  destruct (Qlt_le_dec q 0) as [Hq | Hq].
  - destruct (Hn Hq). split; [lra|]. split; [lra|]. right. lra.
  - destruct (Hp Hq). split; [lra|]. split; [lra|]. left. lra.
Qed.

Lemma cents_half_up_mono (x y : Q) :
  x <= y -> (cents_half_up x <= cents_half_up y)%Z.
Proof.
  intros Hxy. apply Zle_of_Qlt_succ.
  destruct (cents_half_up_bounds x) as [Hx1 [Hx2 Hx3]].
  destruct (cents_half_up_bounds y) as [Hy1 [Hy2 Hy3]].
  destruct (Qlt_le_dec x y) as [Hlt | Hge]; [lra|].
  assert (E : x == y) by lra.
  rewrite (cents_half_up_comp E). lra.
Qed.

Lemma cents_half_even_bounds (q : Q) :
  q * 100 - (1 # 2) <= inject_Z (cents_half_even q) /\
  inject_Z (cents_half_even q) <= q * 100 + (1 # 2).
Proof.
  unfold cents_half_even. cbv zeta.
  pose proof (Qfloor_le (q * 100)) as Hlo.
  pose proof (Qlt_floor (q * 100)) as Hhi.
  rewrite inject_Z_succ in Hhi.
  set (f := Qfloor (q * 100)) in *.
  destruct (Qlt_le_dec (q * 100 - inject_Z f) (1 # 2)) as [H1 | H1];
    [split; lra|].
  destruct (Qlt_le_dec (1 # 2) (q * 100 - inject_Z f)) as [H2 | H2].
  - rewrite inject_Z_succ. split; lra.
  - destruct (Z.even f); [split; lra|].
    rewrite inject_Z_succ. split; lra.
Qed.

Lemma cents_half_even_mono (x y : Q) :
  x <= y -> (cents_half_even x <= cents_half_even y)%Z.
Proof.
  intros Hxy. apply Zle_of_Qlt_succ.
  destruct (cents_half_even_bounds x) as [Hx1 Hx2].
  destruct (cents_half_even_bounds y) as [Hy1 Hy2].
  destruct (Qlt_le_dec x y) as [Hlt | Hge]; [lra|].
  assert (E : x == y) by lra.
  rewrite (cents_half_even_comp E). lra.
Qed.

Lemma cents_half_even_zero : cents_half_even 0 = 0%Z.
Proof. reflexivity. Qed.

(** ** Means stay between the bounds of their values *)

Lemma Qsum_bounds (lo hi : Q) (l : list Q) :
  Forall (fun v => lo <= v <= hi) l ->
  lo * inject_Z (Z.of_nat (length l)) <= Qsum l /\
  Qsum l <= hi * inject_Z (Z.of_nat (length l)).
Proof.
  induction 1 as [|v l [Hv1 Hv2] Hl [IH1 IH2]].
  - cbn [length Qsum fold_right]. change (inject_Z (Z.of_nat 0)) with 0.
    split; lra.
  - cbn [length Qsum fold_right]. fold (Qsum l).
    rewrite Nat2Z.inj_succ. unfold Z.succ. rewrite inject_Z_plus.
    change (inject_Z 1) with 1. split; lra.
Qed.

Lemma Qmean_bounds (lo hi : Q) (l : list Q) :
  l <> [] -> Forall (fun v => lo <= v <= hi) l ->
  lo <= Qmean l <= hi.
Proof.
  intros Hne Hall. destruct (Qsum_bounds Hall) as [H1 H2].
  assert (Hpos : 0 < inject_Z (Z.of_nat (length l))).
  { change 0 with (inject_Z 0). rewrite <- Zlt_Qlt.
    destruct l; [contradiction | cbn [length]; lia]. }
  unfold Qmean. split.
  - apply Qle_shift_div_l; assumption.
  - apply Qle_shift_div_r; assumption.
Qed.

(** ** Averages within the range of the window *)

Lemma sma_some_value (S : list decimal) (w : nat) :
  (1 <= w <= length S)%nat ->
  _sma (map Some S) w =
  Ok (Some (cents_half_up (Qmean (firstn w S)) # 100)).
Proof.
  intros [Hw Hlen]. rewrite sma_value by (rewrite length_map; lia).
  rewrite firstn_map, present_map_some.
  unfold Qmean. rewrite firstn_length_le by assumption. reflexivity.
Qed.

(** X1: when every close of the window lies between [lo] and [hi], the
    average lies between [lo] and [hi] rounded; so the average of a window
    of equal closes is that close, rounded.  The same holds for the
    previous-day average over its own window. *)
Theorem sma_within_window_range (S : list decimal) (w : nat) (lo hi : Q) :
  (1 <= w)%nat ->
  ((w <= length S)%nat ->
   Forall (fun v => lo <= v <= hi) (firstn w S) ->
   exists c : Z,
     _sma (map Some S) w = Ok (Some (c # 100)) /\
     (cents_half_up lo <= c <= cents_half_up hi)%Z) /\
  ((w + 1 <= length S)%nat ->
   Forall (fun v => lo <= v <= hi) (firstn w (skipn 1 S)) ->
   exists c : Z,
     _sma_prev (map Some S) w = Ok (Some (c # 100)) /\
     (cents_half_up lo <= c <= cents_half_up hi)%Z).
Proof.
  intros Hw.
  assert (Hgen : forall T : list decimal,
             (w <= length T)%nat ->
             Forall (fun v => lo <= v <= hi) (firstn w T) ->
             exists c : Z,
               _sma (map Some T) w = Ok (Some (c # 100)) /\
               (cents_half_up lo <= c <= cents_half_up hi)%Z).
  { intros T Hlen Hall.
    exists (cents_half_up (Qmean (firstn w T))). split.
    - apply sma_some_value. lia.
    - assert (Hne : firstn w T <> []) by (apply firstn_nonempty; lia).
      destruct (Qmean_bounds Hne Hall) as [H1 H2].
      split; apply cents_half_up_mono; assumption. }
  split.
  - apply Hgen.
  - intros Hlen Hall. rewrite sma_prev_tail by assumption.
    rewrite skipn_map. apply Hgen; [|assumption].
    rewrite length_skipn. lia.
Qed.

(** ** ADR20 *)

Lemma fold_adr_step (l : list (option decimal * option decimal))
  (t : Q) (c : nat) :
  exists t',
    fold_left adr_step l (t, c) =
    (t', (c + length (filter both_present l))%nat) /\
    t' == t + Qsum (map pair_range (filter both_present l)).
Proof.
  revert t c. induction l as [|[[h|] [lw|]] l IH]; intros t c.
  - exists t. cbn [fold_left filter length map].
    rewrite Nat.add_0_r. split; [reflexivity | unfold Qsum; cbn; lra].
  - destruct (IH (t + (h - lw)) (S c)) as [t' [Hf Ht]].
    exists t'. cbn [fold_left adr_step filter both_present length map pair_range].
    split; [etransitivity; [exact Hf | f_equal; lia]|].
    rewrite Ht. unfold Qsum. cbn [fold_right]. lra.
  - destruct (IH t c) as [t' [Hf Ht]]. exists t'.
    cbn [fold_left adr_step filter both_present]. auto.
  - destruct (IH t c) as [t' [Hf Ht]]. exists t'.
    cbn [fold_left adr_step filter both_present]. auto.
  - destruct (IH t c) as [t' [Hf Ht]]. exists t'.
    cbn [fold_left adr_step filter both_present]. auto.
Qed.

Lemma filter_length_lt {A : Type} (f : A -> bool) (l : list A) :
  Exists (fun x => f x = false) l ->
  (length (filter f l) < length l)%nat.
Proof.
  induction 1 as [x l Hx | x l Hl IH]; cbn [filter length].
  - rewrite Hx. pose proof (filter_length_le f l). lia.
  - destruct (f x); cbn [length]; lia.
Qed.

Lemma combine_some (hs ls : list Q) :
  combine (map Some hs) (map Some ls) =
  map (fun hl => (Some (fst hl), Some (snd hl))) (combine hs ls).
Proof.
  revert ls. induction hs as [|h hs IH]; intros ls; [reflexivity|].
  destruct ls as [|l ls]; [reflexivity|].
  cbn [map combine fst snd]. rewrite IH. reflexivity.
Qed.

Lemma filter_both_present_some (l : list (Q * Q)) :
  filter both_present (map (fun hl => (Some (fst hl), Some (snd hl))) l) =
  map (fun hl => (Some (fst hl), Some (snd hl))) l.
Proof.
  induction l as [|x l IH]; [reflexivity|].
  cbn [map filter both_present]. rewrite IH. reflexivity.
Qed.

Lemma adr20_short (highs lows : list (option decimal)) :
  (length highs < 20)%nat \/ (length lows < 20)%nat ->
  _adr20 highs lows = Ok None.
Proof.
  intros H. unfold _adr20.
  assert (E : ((length highs <? 20)%nat || (length lows <? 20)%nat) = true).
  { apply orb_true_iff. destruct H; [left | right]; apply Nat.ltb_lt; lia. }
  rewrite E. reflexivity.
Qed.

(** X2: ADR20 needs 20 highs and 20 lows, and all of the first 20 pairs
    present: one [None] among them makes it absent (where the average counts
    a [None] as zero).  On 20 complete pairs it is 100 times the mean of
    high - low, rounded half-up. *)
Theorem adr20_value :
  (forall highs lows : list (option decimal),
     (length highs < 20)%nat \/ (length lows < 20)%nat ->
     _adr20 highs lows = Ok None) /\
  (forall highs lows : list (option decimal),
     Exists (fun hl => fst hl = None \/ snd hl = None)
       (combine (firstn 20 highs) (firstn 20 lows)) ->
     _adr20 highs lows = Ok None) /\
  (forall highs lows : list Q,
     (20 <= length highs)%nat -> (20 <= length lows)%nat ->
     _adr20 (map Some highs) (map Some lows) =
     Ok (Some (quantize_half_up
                 (Qmean (firstn 20 (day_ranges highs lows)) * 100)))).
Proof.
  split; [exact adr20_short | split].
  - intros highs lows Hex.
    destruct (Nat.ltb_spec (length highs) 20) as [Hh | Hh];
      [apply adr20_short; left; assumption|].
    destruct (Nat.ltb_spec (length lows) 20) as [Hl | Hl];
      [apply adr20_short; right; assumption|].
    unfold _adr20.
    assert (E : ((length highs <? 20)%nat || (length lows <? 20)%nat) = false).
    { apply orb_false_iff. split; apply Nat.ltb_ge; assumption. }
    rewrite E.
    destruct (fold_adr_step (combine (firstn 20 highs) (firstn 20 lows)) 0 0)
      as [t' [Hf _]].
    rewrite Hf.
    assert (Hlt : (length (filter both_present
                             (combine (firstn 20 highs) (firstn 20 lows)))
                   < 20)%nat).
    { eapply Nat.lt_le_trans.
      - apply filter_length_lt. eapply Exists_impl; [|exact Hex].
        intros [[h|] [l|]] [H | H]; cbn in H; try discriminate; reflexivity.
      - rewrite length_combine, !length_firstn. lia. }
    apply Nat.ltb_lt in Hlt. cbn [Nat.add]. rewrite Hlt. reflexivity.
  - intros highs lows Hh Hl. unfold _adr20. rewrite !length_map.
    assert (E : ((length highs <? 20)%nat || (length lows <? 20)%nat) = false).
    { apply orb_false_iff. split; apply Nat.ltb_ge; assumption. }
    rewrite E. rewrite !firstn_map, combine_some.
    destruct (fold_adr_step
                (map (fun hl => (Some (fst hl), Some (snd hl)))
                   (combine (firstn 20 highs) (firstn 20 lows))) 0 0)
      as [t' [Hf Ht]].
    rewrite Hf. rewrite filter_both_present_some in *.
    rewrite length_map, length_combine, !firstn_length_le by assumption.
    cbn [Nat.add Nat.min Nat.ltb Nat.leb].
    rewrite decimal_div_ok by lia. cbn [bind].
    do 2 f_equal. apply quantize_half_up_comp.
    rewrite Ht, map_map. cbn [pair_range fst snd].
    unfold Qmean, day_ranges. rewrite firstn_map.
    rewrite combine_firstn, length_map, length_combine,
      !firstn_length_le by assumption.
    cbn [Nat.min]. unfold Decimal_of_nat. field.
Qed.

(** ** AVD20 *)

Lemma decimal_quantize_comp (q q' : Q) :
  q == q' -> decimal_quantize q = decimal_quantize q'.
Proof.
  intros E. unfold decimal_quantize. rewrite (cents_half_up_comp E).
  reflexivity.
Qed.

(** AVD20 on 20 closes and 20 volumes or more: the quantize of the product
    of the two means, a [None] close adding nothing to the first. *)
Lemma avd20_long (closes : list (option decimal)) (volumes : list Z) :
  (20 <= length closes)%nat -> (20 <= length volumes)%nat ->
  _avd20 closes volumes =
  v <- decimal_quantize
         (Qsum (present (firstn 20 closes)) / 20
          * Qmean (map inject_Z (firstn 20 volumes))) ;;
  Ok (Some v).
Proof.
  intros Hc Hv. unfold _avd20.
  assert (E : ((length closes <? 20)%nat || (length volumes <? 20)%nat) = false).
  { apply orb_false_iff. split; apply Nat.ltb_ge; assumption. }
  rewrite E. rewrite !decimal_div_ok by lia. cbn [bind].
  f_equal. apply decimal_quantize_comp.
  rewrite fold_add_present, inject_Zsum. unfold Qmean.
  rewrite length_map, firstn_length_le by assumption.
  unfold Decimal_of_nat. field.
Qed.

(** X3: AVD20 needs 20 closes and 20 volumes.  With them it is never
    absent: it is a number of hundredths of at most 28 digits, or the
    quantize of a larger value raises [InvalidOperation].  A [None] close
    counts as a close of zero here, it does not make the value absent. *)
Theorem avd20_value (closes : list (option decimal)) (volumes : list Z) :
  ((length closes < 20)%nat \/ (length volumes < 20)%nat ->
   _avd20 closes volumes = Ok None) /\
  ((20 <= length closes)%nat -> (20 <= length volumes)%nat ->
   _avd20 closes volumes = _avd20 (none_as_zero closes) volumes /\
   ((exists c : Z,
       _avd20 closes volumes = Ok (Some (c # 100)) /\ (Z.abs c < 10 ^ 28)%Z) \/
    _avd20 closes volumes = Raise InvalidOperation)).
Proof.
  split.
  - intros H. unfold _avd20.
    assert (E : ((length closes <? 20)%nat || (length volumes <? 20)%nat) = true).
    { apply orb_true_iff. destruct H; [left | right]; apply Nat.ltb_lt; lia. }
    rewrite E. reflexivity.
  - intros Hc Hv. split.
    + rewrite (avd20_long closes volumes Hc Hv).
      rewrite (@avd20_long (none_as_zero closes) volumes)
        by (unfold none_as_zero; rewrite ?length_map; assumption).
      f_equal. apply decimal_quantize_comp.
      rewrite none_as_zero_firstn, Qsum_present_none_as_zero. reflexivity.
    + rewrite (avd20_long closes volumes Hc Hv). unfold decimal_quantize.
      cbv zeta. set (c := cents_half_up _).
      destruct (10 ^ 28 <=? Z.abs c)%Z eqn:E; cbn [bind].
      * right. reflexivity.
      * left. exists c. split; [reflexivity|]. apply Z.leb_gt in E. exact E.
Qed.

(** ** ATR14 on any input *)



(** ** ATR14 is never negative *)

Lemma smooth_bounds (lo hi atr tr : Q) :
  lo <= atr <= hi -> lo <= tr <= hi -> lo <= smooth atr tr <= hi.
Proof.
  intros [Ha1 Ha2] [Ht1 Ht2]. unfold smooth. split.
  - apply Qle_shift_div_l; lra.
  - apply Qle_shift_div_r; lra.
Qed.

Lemma fold_smooth_bounds (lo hi : Q) (l : list Q) (x : Q) :
  lo <= x <= hi -> Forall (fun t => lo <= t <= hi) l ->
  lo <= fold_left smooth l x <= hi.
Proof.
  intros Hx Hl. revert x Hx. induction Hl as [|t l Ht Hl IH]; intros x Hx.
  - exact Hx.
  - cbn [fold_left]. apply IH. apply smooth_bounds; assumption.
Qed.

Lemma Forall_firstn {A : Type} (P : A -> Prop) (n : nat) (l : list A) :
  Forall P l -> Forall P (firstn n l).
Proof.
  intros H. revert n. induction H as [|x l Hx Hl IH]; intros n.
  - rewrite firstn_nil. constructor.
  - destruct n as [|n]; [constructor|].
    cbn [firstn]. constructor; [assumption | apply IH].
Qed.

Lemma Forall_skipn {A : Type} (P : A -> Prop) (n : nat) (l : list A) :
  Forall P l -> Forall P (skipn n l).
Proof.
  intros H. revert n. induction H as [|x l Hx Hl IH]; intros n.
  - rewrite skipn_nil. constructor.
  - destruct n as [|n]; [constructor; assumption|].
    cbn [skipn]. apply IH.
Qed.

Lemma wilder_bounds (lo hi : Q) (trs : list Q) :
  (14 <= length trs)%nat -> Forall (fun t => lo <= t <= hi) trs ->
  lo <= wilder trs <= hi.
Proof.
  intros Hlen Hall. unfold wilder. apply fold_smooth_bounds.
  - apply Qmean_bounds; [apply firstn_nonempty; lia | apply Forall_firstn].
    assumption.
  - apply Forall_skipn. assumption.
Qed.

(** ATR14 on finite series of one length, as the rounded smoothing of the
    rational True Ranges. *)
Lemma atr14_finite_value (highs lows closes : list Q) :
  length highs = length lows -> length lows = length closes ->
  (15 <= length closes)%nat ->
  _atr14 (map Fin highs) (map Fin lows) (map Fin closes) =
  Ok (Some (Fin (atr14_spec highs lows closes))).
Proof.
  intros HL HC Hn.
  rewrite atr14_value by (rewrite ?length_map; assumption).
  cbv zeta. rewrite <- !map_rev, ranges_fin, finite_values_fin.
  assert (Hlen : length (ranges Qtrue_range (rev highs) (rev lows) (rev closes))
                 = (length closes - 1)%nat).
  { rewrite ranges_length by (rewrite !length_rev; assumption).
    rewrite length_rev. lia. }
  assert (Hlt : (length (ranges Qtrue_range (rev highs) (rev lows) (rev closes))
                 <? 14)%nat = false) by (apply Nat.ltb_ge; lia).
  rewrite Hlt. reflexivity.
Qed.

Lemma Qtrue_range_nonneg (h l pc : Q) : 0 <= Qtrue_range h l pc.
Proof.
  unfold Qtrue_range.
  apply Qle_trans with (Qabs (l - pc)); [apply Qabs_nonneg | apply Q.le_max_r].
Qed.

Lemma ranges_from_Forall {A : Type} (P : A -> Prop) (tr : A -> A -> A -> A)
  (H L C : list A) (pc : A) :
  (forall h l c, P (tr h l c)) -> Forall P (ranges_from tr pc H L C).
Proof.
  intros Htr. revert L C pc. induction H as [|h H IH]; intros L C pc;
    [constructor|].
  destruct L as [|l L]; [constructor|].
  destruct C as [|c C]; [constructor|].
  cbn [ranges_from]. constructor; [apply Htr | apply IH].
Qed.

Lemma ranges_Forall {A : Type} (P : A -> Prop) (tr : A -> A -> A -> A)
  (H L C : list A) :
  (forall h l c, P (tr h l c)) -> Forall P (ranges tr H L C).
Proof.
  intros Htr. destruct H as [|h H]; [constructor|].
  destruct L as [|l L]; [constructor|].
  destruct C as [|c C]; [constructor|].
  cbn [ranges]. apply ranges_from_Forall. assumption.
Qed.

Lemma list_bounded (l : list Q) :
  exists hi, Forall (fun t => t <= hi) l.
Proof.
  induction l as [|x l [hi IH]].
  - exists 0. constructor.
  - exists (Qmax x hi). constructor; [apply Q.le_max_l|].
    eapply Forall_impl; [|exact IH].
    intros t Ht. apply Qle_trans with hi; [assumption | apply Q.le_max_r].
Qed.

(** X6: on finite series of one length, ATR14 is never negative, even where
    a high lies below its low. *)
Theorem atr14_nonnegative (highs lows closes : list Q) (x : num) :
  length highs = length lows -> length lows = length closes ->
  _atr14 (map Fin highs) (map Fin lows) (map Fin closes) = Ok (Some x) ->
  not_negative x.
Proof.
  intros HL HC Hx.
  destruct (Nat.ltb_spec (length closes) 15) as [Hn | Hn].
  - rewrite atr14_short in Hx by (rewrite !length_map; lia). discriminate Hx.
  - rewrite atr14_finite_value in Hx by assumption.
    inversion Hx; subst. cbn [not_negative].
    set (trs := ranges Qtrue_range (rev highs) (rev lows) (rev closes)).
    assert (Hnn : Forall (fun t => 0 <= t) trs)
      by (apply ranges_Forall; apply Qtrue_range_nonneg).
    destruct (list_bounded trs) as [hi Hhi].
    assert (Hall : Forall (fun t => 0 <= t <= hi) trs).
    { rewrite Forall_forall in *. intros t Ht. split; auto. }
    assert (Hlen : (14 <= length trs)%nat).
    { unfold trs. rewrite ranges_length by (rewrite !length_rev; assumption).
      rewrite length_rev. lia. }
    destruct (wilder_bounds Hlen Hall) as [H1 _].
    unfold atr14_spec, round_half_even. fold trs.
    pose proof (cents_half_even_mono H1) as Hc.
    rewrite cents_half_even_zero in Hc.
    unfold Qle. cbn [Qnum Qden]. lia.
Qed.

(** ** Volume ratio on equal and on non-negative volumes *)

Lemma Zsum_equal (v : Z) (l : list Z) :
  Forall (fun x => x = v) l -> Zsum l = (Z.of_nat (length l) * v)%Z.
Proof.
  intros H. unfold Zsum.
  assert (G : forall a, fold_left Z.add l a = (a + Z.of_nat (length l) * v)%Z).
  { induction H as [|x l Hx Hl IH]; intros a.
    - cbn [fold_left length]. lia.
    - cbn [fold_left length]. rewrite IH, Hx, Nat2Z.inj_succ. lia. }
  rewrite G. lia.
Qed.

Lemma Zsum_nonneg (l : list Z) :
  Forall (fun v => (0 <= v)%Z) l -> (0 <= Zsum l)%Z.
Proof.
  intros H. unfold Zsum.
  assert (G : forall a, (0 <= a)%Z -> (0 <= fold_left Z.add l a)%Z).
  { induction H as [|x l Hx Hl IH]; intros a Ha.
    - exact Ha.
    - cbn [fold_left]. apply IH. lia. }
  apply G. lia.
Qed.

Lemma firstn_of_longer {A : Type} (P : A -> Prop) (i j : nat) (l : list A) :
  (i <= j)%nat -> Forall P (firstn j l) -> Forall P (firstn i l).
Proof.
  intros Hij H. replace i with (Nat.min i j) by lia.
  rewrite <- firstn_firstn. apply Forall_firstn. assumption.
Qed.

(** On equal volumes the ratio is the count [r] as a float holds it. *)
Lemma volume_ratio_equal (volumes : list Z) (r w : nat) (v : Z) :
  (1 <= w)%nat ->
  (Nat.max r w <= length volumes)%nat ->
  Forall (fun x => x = v) (firstn (Nat.max r w) volumes) ->
  v <> 0%Z ->
  _volume_ratio volumes r w =
  match binary64 (inject_Z (Z.of_nat r)) with
  | Fin x => Ok (Some (Fin (round_half_even x)))
  | _ => Raise OverflowError
  end.
Proof.
  intros Hw Hlen Hall Hv.
  assert (HS : Zsum (firstn r volumes) = (Z.of_nat r * v)%Z).
  { rewrite (@Zsum_equal v).
    - rewrite firstn_length_le by lia. reflexivity.
    - apply firstn_of_longer with (j := Nat.max r w); [lia | assumption]. }
  assert (HT : Zsum (firstn w volumes) = (Z.of_nat w * v)%Z).
  { rewrite (@Zsum_equal v).
    - rewrite firstn_length_le by lia. reflexivity.
    - apply firstn_of_longer with (j := Nat.max r w); [lia | assumption]. }
  unfold _volume_ratio.
  assert (Hlt : (length volumes <? Nat.max r w)%nat = false)
    by (apply Nat.ltb_ge; lia).
  rewrite Hlt. cbv zeta. rewrite statistics_mean_firstn by lia.
  rewrite HS, HT.
  rewrite (Z.mul_comm (Z.of_nat w) v), Z.mod_mul, Z.div_mul by lia.
  cbn [Z.eqb bind py_is_zero py_truediv].
  assert (Hvb : (v =? 0)%Z = false) by (apply Z.eqb_neq; assumption).
  rewrite Hvb. unfold int_truediv. rewrite Hvb.
  assert (Eq : inject_Z (Z.of_nat r * v) / inject_Z v == inject_Z (Z.of_nat r)).
  { rewrite inject_Z_mult. field.
    intros E. unfold Qeq in E. cbn in E. lia. }
  rewrite (binary64_comp Eq).
  destruct (binary64 (inject_Z (Z.of_nat r))); reflexivity.
Qed.

(** X7: when the most recent [max r w] volumes are all the same non-zero
    [v], the ratio is [r]: 1.00 for [a130], 2.00 for [a260] and 3.00 for
    [a390].  The count [r] is below [2 ^ 53], so that a float holds it
    exactly. *)
Theorem volume_ratio_of_equal_volumes (volumes : list Z) (r w : nat) (v : Z) :
  (1 <= w)%nat ->
  (Nat.max r w <= length volumes)%nat ->
  Forall (fun x => x = v) (firstn (Nat.max r w) volumes) ->
  v <> 0%Z ->
  (Z.of_nat r < 2 ^ 53)%Z ->
  _volume_ratio volumes r w = Ok (Some (Fin ((Z.of_nat r * 100)%Z # 100))).
Proof.
  intros Hw Hlen Hall Hv Hr.
  rewrite (@volume_ratio_equal volumes r w v Hw Hlen Hall Hv).
  destruct (@binary64_int (Z.of_nat r) ltac:(lia)) as [x [Hx Ex]].
  rewrite Hx. do 3 f_equal.
  apply round_half_even_grid.
  rewrite Ex, (Qmake_Qdiv (Z.of_nat r * 100) 100), inject_Z_mult. field.
Qed.

(** Beyond [2 ^ 53] the float quotient no longer holds the count: on
    [2 ^ 53 + 1] equal volumes the ratio of them all to one is [2 ^ 53]. *)
Example volume_ratio_of_many_equal_volumes :
  _volume_ratio (repeat 1%Z (Z.to_nat (2 ^ 53 + 1))) (Z.to_nat (2 ^ 53 + 1)) 1 =
  Ok (Some (Fin ((2 ^ 53 * 100)%Z # 100))).
Proof.
  rewrite (@volume_ratio_equal _ _ 1%nat 1%Z).
  - rewrite Z2Nat.id by lia. vm_compute. reflexivity.
  - lia.
  - rewrite repeat_length. lia.
  - apply Forall_firstn. apply Forall_forall. intros x Hx.
    apply repeat_spec in Hx. assumption.
  - lia.
Qed.

Lemma round_half_even_nonneg (q : Q) : 0 <= q -> 0 <= round_half_even q.
Proof.
  intros Hq. pose proof (cents_half_even_mono Hq) as Hc.
  rewrite cents_half_even_zero in Hc.
  unfold round_half_even, Qle. cbn [Qnum Qden]. lia.
Qed.

Lemma Qdiv_nonneg (a b : Q) : 0 <= a -> 0 <= b -> 0 <= a / b.
Proof.
  intros Ha Hb. destruct (Qlt_le_dec 0 b) as [Hp | Hz].
  - apply Qle_shift_div_l; [assumption|]. rewrite Qmult_0_l. assumption.
  - assert (E : b == 0) by lra. rewrite E. unfold Qdiv, Qinv. cbn.
    rewrite Qmult_0_r. apply Qle_refl.
Qed.

Lemma inject_Z_nonneg (z : Z) : (0 <= z)%Z -> 0 <= inject_Z z.
Proof. intros H. change 0 with (inject_Z 0). rewrite <- Zle_Qle. assumption. Qed.

(** X8: on volumes that are not negative, the ratio is never negative: it
    is a number that is not, or the infinity of a quotient too large for a
    float. *)
Theorem volume_ratio_nonnegative (volumes : list Z) (r w : nat) (x : num) :
  (1 <= w)%nat ->
  Forall (fun v => (0 <= v)%Z) volumes ->
  _volume_ratio volumes r w = Ok (Some x) ->
  not_negative x.
Proof.
  intros Hw Hall Hx.
  destruct (Nat.ltb_spec (length volumes) (Nat.max r w)) as [Hlen | Hlen].
  { unfold _volume_ratio in Hx. apply Nat.ltb_lt in Hlen.
    rewrite Hlen in Hx. discriminate Hx. }
  pose proof (Zsum_nonneg (Forall_firstn r Hall)) as HS.
  pose proof (Zsum_nonneg (Forall_firstn w Hall)) as HT.
  unfold _volume_ratio in Hx.
  assert (Hlt : (length volumes <? Nat.max r w)%nat = false)
    by (apply Nat.ltb_ge; lia).
  rewrite Hlt in Hx. cbv zeta in Hx.
  rewrite statistics_mean_firstn in Hx by lia.
  set (T := Zsum (firstn w volumes)) in *.
  set (S := Zsum (firstn r volumes)) in *.
  set (n := Z.of_nat w) in *.
  assert (Hn : (1 <= n)%Z) by (unfold n; lia).
  pose proof (inject_Z_nonneg HS) as QS.
  pose proof (inject_Z_nonneg HT) as QT.
  assert (Qn : 0 <= inject_Z n) by (apply inject_Z_nonneg; lia).
  destruct (T mod n =? 0)%Z.
  - cbn [bind py_is_zero py_truediv] in Hx.
    assert (Hz : (0 <= T / n)%Z) by (apply Z.div_pos; lia).
    destruct (T / n =? 0)%Z eqn:Ez; [discriminate Hx|].
    unfold int_truediv in Hx. rewrite Ez in Hx.
    destruct (binary64 (inject_Z S / inject_Z (T / n))) as [v| | |] eqn:Ev;
      try discriminate Hx.
    cbn [bind num_round2] in Hx. inversion Hx; subst x. cbn [not_negative].
    apply round_half_even_nonneg.
    apply (@binary64_sign _ v Ev).
    apply Qdiv_nonneg; [assumption | apply inject_Z_nonneg; assumption].
  - unfold int_truediv at 1 in Hx.
    destruct (n =? 0)%Z; [discriminate Hx|].
    destruct (binary64 (inject_Z T / inject_Z n)) as [b| | |] eqn:Eb;
      try discriminate Hx.
    cbn [bind py_is_zero] in Hx.
    destruct (Qeq_bool b 0) eqn:Ebz; [discriminate Hx|].
    assert (Hb : 0 <= b).
    { apply (@binary64_sign _ b Eb). apply Qdiv_nonneg; assumption. }
    cbn [py_truediv] in Hx. unfold float_of_int in Hx.
    destruct (binary64 (inject_Z S)) as [a| | |] eqn:Ea; try discriminate Hx.
    assert (Ha : 0 <= a) by (apply (@binary64_sign _ a Ea); assumption).
    cbn [bind] in Hx. unfold float_truediv, num_div in Hx.
    rewrite Ebz in Hx. cbn [bind] in Hx.
    destruct (@binary64_nonneg (a / b) (Qdiv_nonneg Ha Hb)) as [Ei | [v [Ef Hv]]].
    + rewrite Ei in Hx. inversion Hx; subst x. exact I.
    + rewrite Ef in Hx. inversion Hx; subst x. cbn [num_round2 not_negative].
      apply round_half_even_nonneg. assumption.
Qed.

(** ** The scan for the highest close *)

Lemma scan_inv_step (seen : list row) (acc : option decimal * option date)
  (r : row) :
  scan_inv seen acc -> scan_inv (seen ++ [r]) (max_close_step acc r).
Proof.
  destruct acc as [[m|] md]; unfold scan_inv, max_close_step.
  - intros [Hm [[b [Hb [Hbc Hbd]]] Hmax]].
    destruct (r_close r) as [c|] eqn:Ec.
    + destruct (truthy (Some c)) eqn:Hc; cbn [andb].
      * destruct (Qle_bool c m) eqn:Hle; cbn [negb].
        -- split; [assumption|]. split.
           ++ exists b. split; [apply in_or_app; left|]; auto.
           ++ intros r' c' Hin Hc' Ht. apply in_app_or in Hin.
              destruct Hin as [Hin | [<- | []]]; [eauto|].
              rewrite Ec in Hc'. inversion Hc'; subst.
              apply Qle_bool_iff. assumption.
        -- assert (Hlt : m < c).
           { destruct (Qlt_le_dec m c) as [H | H]; [assumption|].
             apply Qle_bool_iff in H. congruence. }
           split; [assumption|]. split.
           ++ exists r. split; [apply in_or_app; right; left; reflexivity|].
              auto.
           ++ intros r' c' Hin Hc' Ht. apply in_app_or in Hin.
              destruct Hin as [Hin | [<- | []]].
              ** apply Qle_trans with m; [eauto | lra].
              ** rewrite Ec in Hc'. inversion Hc'; subst. apply Qle_refl.
      * split; [assumption|]. split.
        -- exists b. split; [apply in_or_app; left|]; auto.
        -- intros r' c' Hin Hc' Ht. apply in_app_or in Hin.
           destruct Hin as [Hin | [<- | []]]; [eauto|].
           rewrite Ec in Hc'. inversion Hc'; subst. congruence.
    + split; [assumption|]. split.
      * exists b. split; [apply in_or_app; left|]; auto.
      * intros r' c' Hin Hc' Ht. apply in_app_or in Hin.
        destruct Hin as [Hin | [<- | []]]; [eauto|]. congruence.
  - intros [Hmd Hnone]. subst md.
    destruct (r_close r) as [c|] eqn:Ec.
    + destruct (truthy (Some c)) eqn:Hc; cbn [andb].
      * split; [assumption|]. split.
        -- exists r. split; [apply in_or_app; right; left; reflexivity|].
           auto.
        -- intros r' c' Hin Hc' Ht. apply in_app_or in Hin.
           destruct Hin as [Hin | [<- | []]].
           ++ apply Hnone in Hin. rewrite Hc' in Hin. congruence.
           ++ rewrite Ec in Hc'. inversion Hc'; subst. apply Qle_refl.
      * split; [reflexivity|]. intros r' Hin. apply in_app_or in Hin.
        destruct Hin as [Hin | [<- | []]]; [auto|]. rewrite Ec. assumption.
    + split; [reflexivity|]. intros r' Hin. apply in_app_or in Hin.
      destruct Hin as [Hin | [<- | []]]; [auto|]. rewrite Ec. reflexivity.
Qed.

Lemma scan_inv_fold (data seen : list row)
  (acc : option decimal * option date) :
  scan_inv seen acc ->
  scan_inv (seen ++ data) (fold_left max_close_step data acc).
Proof.
  revert seen acc. induction data as [|r data IH]; intros seen acc Hinv.
  - rewrite app_nil_r. exact Hinv.
  - cbn [fold_left].
    replace (seen ++ r :: data) with ((seen ++ [r]) ++ data)
      by (rewrite <- app_assoc; reflexivity).
    apply IH. apply scan_inv_step. assumption.
Qed.

Lemma truthy_nonzero (c : decimal) : truthy (Some c) = true <-> ~ c == 0.
Proof.
  cbn [truthy]. destruct (Qeq_bool c 0) eqn:E; cbn [negb].
  - apply Qeq_bool_iff in E. split; [discriminate | contradiction].
  - apply Qeq_bool_neq in E. split; auto.
Qed.

(** What [find_max_close] returns, on any list of bars. *)
Lemma find_max_close_scan (data : list row) :
  (find_max_close data = (None, None) /\
   forall r, In r data -> truthy (r_close r) = false) \/
  (exists b m,
     In b data /\ r_close b = Some m /\ ~ m == 0 /\
     find_max_close data = (Some (Fin (round_half_even m)), Some (r_date b)) /\
     forall r c, In r data -> r_close r = Some c -> ~ c == 0 -> c <= m).
Proof.
  assert (Hinv : scan_inv ([] ++ data)
                   (fold_left max_close_step data (None, None))).
  { apply scan_inv_fold. split; [reflexivity | intros r []]. }
  cbn [app] in Hinv. unfold find_max_close.
  destruct (fold_left max_close_step data (None, None)) as [[m|] md];
    unfold scan_inv in Hinv.
  - destruct Hinv as [Hm [[b [Hb [Hbc Hbd]]] Hmax]]. right.
    exists b, m. rewrite Hm, Hbd. cbn [num_round2].
    repeat split; try assumption.
    + apply truthy_nonzero. assumption.
    + intros r c Hin Hc Hnz. apply (Hmax r); try assumption.
      apply truthy_nonzero. assumption.
  - destruct Hinv as [_ Hnone]. left. split; [reflexivity | assumption].
Qed.


(** ** The two rolling highs of a record *)

Lemma since_narrower (target_date : date) (L1 L2 : Z) (rows : list row)
  (r : row) :
  (L2 <= L1)%Z ->
  In r (since target_date L2 rows) -> In r (since target_date L1 rows).
Proof.
  intros HL Hin. apply in_since in Hin. apply in_since.
  destruct Hin as [Hin Hd]. split; [assumption | lia].
Qed.

(** A high over a shorter lookback is present only if the high over a longer
    one is, and does not exceed it. *)
Lemma rolling_high_narrower (L1 L2 : Z) (target_date : date) (rows : list row)
  (v : num) (d : option date) :
  (L2 <= L1)%Z ->
  rolling_high L2 target_date rows = (Some v, d) ->
  exists c1 c2 : Z,
    v = Fin (c2 # 100) /\
    fst (rolling_high L1 target_date rows) = Some (Fin (c1 # 100)) /\
    (c2 <= c1)%Z.
Proof.
  intros HL H2. unfold rolling_high in *.
  destruct (find_max_close_scan (since target_date L2 rows))
    as [[E2 _] | [b2 [m2 [Hb2 [Hc2 [Hm2 [E2 _]]]]]]];
    rewrite E2 in H2; [discriminate H2|].
  inversion H2; subst. clear H2.
  destruct (find_max_close_scan (since target_date L1 rows))
    as [[_ Hnone] | [b1 [m1 [_ [_ [_ [E1 Hmax]]]]]]].
  - exfalso. apply (@since_narrower target_date L1 L2 rows b2 HL) in Hb2.
    apply Hnone in Hb2. rewrite Hc2 in Hb2.
    apply truthy_nonzero in Hm2. congruence.
  - exists (cents_half_even m1), (cents_half_even m2).
    rewrite E1. repeat split.
    apply cents_half_even_mono. apply (Hmax b2); try assumption.
    apply (@since_narrower target_date L1 L2 rows b2 HL). assumption.
Qed.

Section EngineFurther.

Variables W Sink : Type.
Variable sql_max_date : W -> res (option date) * W.
Variable sql_symbols : W -> res (list symbol) * W.
Variable sql_history : symbol -> nat -> W -> res (list sql_row) * W.
Variable sql_upsert : list indicator_record -> Sink -> res Z * Sink.

(** X10: in what [_calculate_highs] returns, the 6-month high is present
    only if the 52-week high is, and never exceeds it. *)
Theorem six_month_high_within_year_high (sym : symbol) (target_date : date)
  (w : W) :
  match fst (_calculate_highs sql_history sym target_date w) with
  | Ok (v_ftwh, _, Some t, _) =>
      exists c1 c2 : Z,
        t = Fin (c2 # 100) /\ v_ftwh = Some (Fin (c1 # 100)) /\ (c2 <= c1)%Z
  | _ => True
  end.
Proof.
  unfold _calculate_highs, bindM.
  destruct (get_price_history sql_history sym 420 w) as [[rows | e] w1];
    [|exact I].
  destruct rows as [|r rows]; [exact I|].
  destruct (rolling_high 365 target_date (rev (r :: rows))) as [f fd] eqn:E1.
  destruct (rolling_high 182 target_date (rev (r :: rows))) as [[t|] td] eqn:E2;
    cbn [ret fst]; [|exact I].
  destruct (@rolling_high_narrower 365 182 target_date (rev (r :: rows)) t td
              ltac:(lia) E2) as [c1 [c2 [Ht [Hf Hle]]]].
  rewrite E1 in Hf. cbn [fst] in Hf. exists c1, c2. auto.
Qed.

(** *** What a record holds *)

Lemma bindM_inv {St A B : Type} (m : M St A) (f : A -> M St B) (s s' : St)
  (b : B) :
  bindM m f s = (Ok b, s') ->
  exists a s1, m s = (Ok a, s1) /\ f a s1 = (Ok b, s').
Proof.
  unfold bindM. destruct (m s) as [[a | e] s1]; [eauto | discriminate].
Qed.

Lemma lift_inv {St A : Type} (r : res A) (s s' : St) (a : A) :
  lift r s = (Ok a, s') -> r = Ok a /\ s' = s.
Proof. unfold lift. intros H. inversion H. auto. Qed.

Lemma calculate_highs_inv (sym : symbol) (target_date : date) (w w' : W)
  (f : option num) (fd : option date) (t : option num) (td : option date) :
  _calculate_highs sql_history sym target_date w = (Ok (f, fd, t, td), w') ->
  exists rows420,
    get_price_history sql_history sym 420 w = (Ok rows420, w') /\
    rolling_high 365 target_date (rev rows420) = (f, fd) /\
    rolling_high 182 target_date (rev rows420) = (t, td).
Proof.
  unfold _calculate_highs. intros H.
  apply bindM_inv in H. destruct H as [rows [w1 [Hq H]]].
  destruct rows as [|r rows].
  - inversion H; subst. exists []. repeat split; first [assumption | reflexivity].
  - destruct (rolling_high 365 target_date (rev (r :: rows))) as [f' fd']
      eqn:E365.
    destruct (rolling_high 182 target_date (rev (r :: rows))) as [t' td']
      eqn:E182.
    inversion H; subst. exists (r :: rows).
    repeat split; first [assumption | reflexivity].
Qed.

(** X12: [calculate_for_symbol] gives a record only when the 250-bar query
    gave at least 200 bars.  The record then carries the symbol and the
    date asked for, each of its fields is the metric of that name on the
    series extracted from those bars, and its highs are the rolling highs
    of the 420-bar history. *)
Theorem record_only_from_full_history (sym : symbol) (target_date : date)
  (w w' : W) (r : indicator_record) :
  calculate_for_symbol sql_history sym target_date w = (Ok (Some r), w') ->
  exists rows w1 rows420,
    get_price_history sql_history sym 250 w = (Ok rows, w1) /\
    (200 <= length rows)%nat /\
    get_price_history sql_history sym 420 w1 = (Ok rows420, w') /\
    ind_symbol r = sym /\ ind_date r = target_date /\
    _sma (map Some (price_series r_close rows)) 5 = Ok (sma5 r) /\
    _sma (map Some (price_series r_close rows)) 10 = Ok (sma10 r) /\
    _sma (map Some (price_series r_close rows)) 20 = Ok (sma20 r) /\
    _sma (map Some (price_series r_close rows)) 50 = Ok (sma50 r) /\
    _sma (map Some (price_series r_close rows)) 100 = Ok (sma100 r) /\
    _sma (map Some (price_series r_close rows)) 200 = Ok (sma200 r) /\
    _sma_prev (map Some (price_series r_close rows)) 5 = Ok (sma5s1 r) /\
    _sma_prev (map Some (price_series r_close rows)) 10 = Ok (sma10s1 r) /\
    _sma_prev (map Some (price_series r_close rows)) 20 = Ok (sma20s1 r) /\
    _sma_prev (map Some (price_series r_close rows)) 50 = Ok (sma50s1 r) /\
    _sma_prev (map Some (price_series r_close rows)) 100 = Ok (sma100s1 r) /\
    _sma_prev (map Some (price_series r_close rows)) 200 = Ok (sma200s1 r) /\
    _adr20 (map Some (price_series r_high rows))
      (map Some (price_series r_low rows)) = Ok (adr20 r) /\
    _avd20 (map Some (price_series r_close rows)) (volume_series rows)
    = Ok (avd20 r) /\
    _atr14 (map Fin (price_series r_high rows))
      (map Fin (price_series r_low rows))
      (map Fin (price_series r_close rows)) = Ok (atr14 r) /\
    _volume_ratio (volume_series rows) 1 30 = Ok (a130 r) /\
    _volume_ratio (volume_series rows) 2 60 = Ok (a260 r) /\
    _volume_ratio (volume_series rows) 3 90 = Ok (a390 r) /\
    rolling_high 365 target_date (rev rows420) = (ftwh r, ftwh_date r) /\
    rolling_high 182 target_date (rev rows420) = (tswh r, tswh_date r).
Proof.
  intros H. unfold calculate_for_symbol, except_any in H.
  destruct (calculate_body sql_history sym target_date w) as [[res | e] s] eqn:Hb;
    inversion H; subst. clear H.
  unfold calculate_body in Hb.
  apply bindM_inv in Hb. destruct Hb as [rows [w1 [Hrows Hb]]].
  destruct (length rows <? 200)%nat eqn:Elen; [discriminate Hb|].
  apply Nat.ltb_ge in Elen. cbv zeta in Hb.
  destruct (_ || _) in Hb; [discriminate Hb|].
  repeat match type of Hb with
         | bindM (lift _) _ _ = _ =>
             let v := fresh "v" in
             let s := fresh "s" in
             let E := fresh "E" in
             apply bindM_inv in Hb; destruct Hb as [v [s [E Hb]]];
             apply lift_inv in E; destruct E as [E ->]
         end.
  apply bindM_inv in Hb. destruct Hb as [[[[f fd] t] td] [s [Hh Hb]]].
  inversion Hb; subst. clear Hb.
  apply calculate_highs_inv in Hh. destruct Hh as [rows420 [Hq [H365 H182]]].
  exists rows, w1, rows420.
  cbn [ind_symbol ind_date sma5 sma10 sma20 sma50 sma100 sma200
       sma5s1 sma10s1 sma20s1 sma50s1 sma100s1 sma200s1
       adr20 avd20 atr14 a130 a260 a390 ftwh ftwh_date tswh tswh_date].
  repeat (split; [first [assumption | reflexivity]|]). assumption.
Qed.


(** *** The driver at its edges *)

(** X13: when the date query gives no date or raises, the batch driver
    returns 0 without asking for the symbols or writing; when the symbol
    query gives no symbol or raises, it returns 0 without writing.  This
    holds for any batch size. *)
Theorem driver_without_date_or_symbols (batch_size : nat) (w : W) (k : Sink) :
  (forall outcome w1,
     sql_max_date w = (outcome, w1) ->
     outcome = Ok None \/ (exists e, outcome = Raise e) ->
     process_all_symbols sql_max_date sql_symbols sql_history sql_upsert
       batch_size (w, k) = (Ok 0%Z, (w1, k))) /\
  (forall d w1 outcome w2,
     sql_max_date w = (Ok (Some d), w1) ->
     sql_symbols w1 = (outcome, w2) ->
     outcome = Ok [] \/ (exists e, outcome = Raise e) ->
     process_all_symbols sql_max_date sql_symbols sql_history sql_upsert
       batch_size (w, k) = (Ok 0%Z, (w2, k))).
Proof.
  split.
  - intros outcome w1 Hq Hout.
    unfold process_all_symbols, except_any, process_body, bindM, on_store,
      get_latest_date, except_mysql.
    cbn [fst snd]. rewrite Hq.
    destruct Hout as [-> | [e ->]]; [reflexivity|].
    destruct e; reflexivity.
  - intros d w1 outcome w2 Hd Hs Hout.
    unfold process_all_symbols, except_any, process_body, bindM, on_store,
      get_latest_date, get_all_symbols, except_mysql.
    cbn [fst snd]. rewrite Hd. cbn [fst snd]. rewrite Hs.
    destruct Hout as [-> | [e ->]]; [reflexivity|].
    destruct e; reflexivity.
Qed.

(** The value of a run of the driver, from the records and the writes. *)
Lemma driver_run_value (batch_size : nat) (w w1 w2 w3 : W) (k k' : Sink)
  (target_date : date) (symbols : list symbol)
  (recs : list indicator_record) (r : Z) :
  (1 <= batch_size)%nat ->
  (forall data k0 e k1, sql_upsert data k0 = (Raise e, k1) -> e = MySQLError) ->
  get_latest_date sql_max_date w = (Ok (Some target_date), w1) ->
  get_all_symbols sql_symbols w1 = (Ok symbols, w2) ->
  collect_records sql_history symbols target_date w2 = (Ok recs, w3) ->
  flush_batches sql_upsert (chunks batch_size recs) k = (Ok r, k') ->
  process_all_symbols sql_max_date sql_symbols sql_history sql_upsert
    batch_size (w, k) = (Ok r, (w3, k')).
Proof.
  intros Hbs Hsink Hdate Hsyms Hrecs Hr.
  unfold process_all_symbols, except_any, process_body.
  rewrite (bindM_ok _ _ _ (on_store_run _ _ k Hdate)).
  rewrite (bindM_ok _ _ _ (on_store_run _ _ k Hsyms)).
  destruct symbols as [|sym rest].
  - cbn [collect_records] in Hrecs. inversion Hrecs; subst.
    rewrite chunks_nil in Hr. inversion Hr; subst. reflexivity.
  - change (fun acc : list indicator_record * Z =>
              write_remaining sql_upsert acc)
      with (write_remaining (W := W) sql_upsert).
    rewrite (@driver_loop W Sink sql_history sql_upsert Hsink batch_size Hbs
               target_date (sym :: rest) [] 0%Z w2 w3 k k' recs r);
      [reflexivity | cbn [length]; lia | assumption | assumption].
Qed.

Lemma length_concat_cons {A : Type} (b : list A) (rest : list (list A)) :
  Z.of_nat (length (concat (b :: rest))) =
  (Z.of_nat (length b) + Z.of_nat (length (concat rest)))%Z.
Proof. cbn [concat]. rewrite length_app. lia. Qed.

Lemma flush_batches_exact (batches : list (list indicator_record)) (k : Sink) :
  (forall data k0, exists k1,
      sql_upsert data k0 = (Ok (Z.of_nat (length data)), k1)) ->
  exists k',
    flush_batches sql_upsert batches k =
    (Ok (Z.of_nat (length (concat batches))), k').
Proof.
  intros Hexact. revert k. induction batches as [|b rest IH]; intros k.
  - exists k. reflexivity.
  - assert (Hb : exists k1,
               batch_insert_indicators sql_upsert b k =
               (Ok (Z.of_nat (length b)), k1)).
    { destruct b as [|x b]; [exists k; reflexivity|].
      destruct (Hexact (x :: b) k) as [k1 E]. exists k1.
      cbn [batch_insert_indicators]. unfold except_mysql. rewrite E.
      reflexivity. }
    destruct Hb as [k1 Hb]. destruct (IH k1) as [k' Hrest].
    exists k'. cbn [flush_batches].
    rewrite (bindM_ok _ _ _ Hb), (bindM_ok _ _ _ Hrest).
    unfold ret. rewrite length_concat_cons. reflexivity.
Qed.

Lemma flush_batches_failed (batches : list (list indicator_record)) (k : Sink) :
  (forall data k0, exists k1, sql_upsert data k0 = (Raise MySQLError, k1)) ->
  exists k', flush_batches sql_upsert batches k = (Ok 0%Z, k').
Proof.
  intros Hfail. revert k. induction batches as [|b rest IH]; intros k.
  - exists k. reflexivity.
  - assert (Hb : exists k1,
               batch_insert_indicators sql_upsert b k = (Ok 0%Z, k1)).
    { destruct b as [|x b]; [exists k; reflexivity|].
      destruct (Hfail (x :: b) k) as [k1 E]. exists k1.
      cbn [batch_insert_indicators]. unfold except_mysql. rewrite E.
      reflexivity. }
    destruct Hb as [k1 Hb]. destruct (IH k1) as [k' Hrest].
    exists k'. cbn [flush_batches].
    rewrite (bindM_ok _ _ _ Hb), (bindM_ok _ _ _ Hrest). reflexivity.
Qed.

(** X14: with a sink that reports as many rows as it is given, the batch
    driver returns the number of records the symbols yielded, whatever the
    batch size. *)
Theorem driver_counts_records (batch_size : nat) (w w1 w2 : W) (k : Sink)
  (target_date : date) (symbols : list symbol) :
  (1 <= batch_size)%nat ->
  (forall data k0, exists k1,
      sql_upsert data k0 = (Ok (Z.of_nat (length data)), k1)) ->
  get_latest_date sql_max_date w = (Ok (Some target_date), w1) ->
  get_all_symbols sql_symbols w1 = (Ok symbols, w2) ->
  exists recs w3 k',
    collect_records sql_history symbols target_date w2 = (Ok recs, w3) /\
    process_all_symbols sql_max_date sql_symbols sql_history sql_upsert
      batch_size (w, k) = (Ok (Z.of_nat (length recs)), (w3, k')).
Proof.
  intros Hbs Hexact Hdate Hsyms.
  destruct (collect_records_ok sql_history target_date symbols w2)
    as [recs [w3 Hrecs]].
  destruct (flush_batches_exact (chunks batch_size recs) k Hexact)
    as [k' Hflush].
  rewrite chunks_concat in Hflush by assumption.
  exists recs, w3, k'. split; [assumption|].
  eapply driver_run_value; try eassumption.
  intros data k0 e k1 E. destruct (Hexact data k0) as [k2 E2].
  rewrite E2 in E. discriminate E.
Qed.

(** X15: when every write fails with the connector's error, the batch
    driver still goes through all the symbols and returns 0. *)
Theorem driver_survives_failed_writes (batch_size : nat) (w w1 w2 : W)
  (k : Sink) (target_date : date) (symbols : list symbol) :
  (1 <= batch_size)%nat ->
  (forall data k0, exists k1, sql_upsert data k0 = (Raise MySQLError, k1)) ->
  get_latest_date sql_max_date w = (Ok (Some target_date), w1) ->
  get_all_symbols sql_symbols w1 = (Ok symbols, w2) ->
  exists recs w3 k',
    collect_records sql_history symbols target_date w2 = (Ok recs, w3) /\
    process_all_symbols sql_max_date sql_symbols sql_history sql_upsert
      batch_size (w, k) = (Ok 0%Z, (w3, k')).
Proof.
  intros Hbs Hfail Hdate Hsyms.
  destruct (collect_records_ok sql_history target_date symbols w2)
    as [recs [w3 Hrecs]].
  destruct (flush_batches_failed (chunks batch_size recs) k Hfail)
    as [k' Hflush].
  exists recs, w3, k'. split; [assumption|].
  eapply driver_run_value; try eassumption.
  intros data k0 e k1 E. destruct (Hfail data k0) as [k2 E2].
  rewrite E2 in E. inversion E. reflexivity.
Qed.

End EngineFurther.

(** ** What the driver hands to the sink *)

Section LoggedSink.

Variable W : Type.
Variable sql_max_date : W -> res (option date) * W.
Variable sql_symbols : W -> res (list symbol) * W.
Variable sql_history : symbol -> nat -> W -> res (list sql_row) * W.

Lemma flush_batches_logged (batches written : list (list indicator_record)) :
  Forall (fun b => (1 <= length b)%nat) batches ->
  flush_batches logged_upsert batches written =
  (Ok (Z.of_nat (length (concat batches))), written ++ batches).
Proof.
  intros Hne. revert written.
  induction Hne as [|b rest Hb Hrest IH]; intros written.
  - cbn [flush_batches concat length]. rewrite app_nil_r. reflexivity.
  - assert (E : batch_insert_indicators logged_upsert b written =
               (Ok (Z.of_nat (length b)), written ++ [b])).
    { destruct b as [|x b]; [cbn [length] in Hb; lia | reflexivity]. }
    cbn [flush_batches].
    rewrite (bindM_ok _ _ _ E), (bindM_ok _ _ _ (IH (written ++ [b]))).
    unfold ret. rewrite length_concat_cons, <- app_assoc. reflexivity.
Qed.

(** X17: the batches the driver hands to the sink, seen through a sink that
    logs them: together they are the records of the symbols, in order; none
    is empty, none holds more than [batch_size] records, and every batch
    but the last holds exactly [batch_size]. *)
Theorem driver_writes_full_batches (batch_size : nat) (w w1 w2 : W)
  (log : list (list indicator_record)) (target_date : date)
  (symbols : list symbol) :
  (1 <= batch_size)%nat ->
  get_latest_date sql_max_date w = (Ok (Some target_date), w1) ->
  get_all_symbols sql_symbols w1 = (Ok symbols, w2) ->
  exists recs w3 written,
    collect_records sql_history symbols target_date w2 = (Ok recs, w3) /\
    process_all_symbols sql_max_date sql_symbols sql_history logged_upsert
      batch_size (w, log)
    = (Ok (Z.of_nat (length recs)), (w3, log ++ written)) /\
    concat written = recs /\
    Forall (fun b => (1 <= length b <= batch_size)%nat) written /\
    (forall pre b post,
       written = pre ++ b :: post -> post <> [] -> length b = batch_size).
Proof.
  intros Hbs Hdate Hsyms.
  destruct (collect_records_ok sql_history target_date symbols w2)
    as [recs [w3 Hrecs]].
  exists recs, w3, (chunks batch_size recs).
  pose proof (chunks_sizes recs Hbs) as Hsizes.
  split; [assumption|]. split; [|split; [|split]].
  - eapply driver_run_value; try eassumption.
    + intros data k0 e k1 E. discriminate E.
    + rewrite flush_batches_logged.
      * rewrite chunks_concat by assumption. reflexivity.
      * eapply Forall_impl; [|exact Hsizes]. intros b [Hb _]. exact Hb.
  - apply chunks_concat. assumption.
  - assumption.
  - intros pre b post E Hpost.
    exact (@chunks_full_before_last _ batch_size recs pre post b Hbs E Hpost).
Qed.

End LoggedSink.

(** ** The further properties at sample inputs *)

Lemma sma_within_window_range_witness :
  (1 <= 2)%nat /\ (2 <= length three_closes)%nat /\
  Forall (fun v => 1 <= v <= 2) (firstn 2 three_closes) /\
  exists c : Z,
    _sma (map Some three_closes) 2 = Ok (Some (c # 100)) /\
    (cents_half_up 1 <= c <= cents_half_up 2)%Z.
Proof.
  assert (H1 : (1 <= 2)%nat) by lia.
  assert (H2 : (2 <= length three_closes)%nat) by (cbn; lia).
  assert (H3 : Forall (fun v => 1 <= v <= 2) (firstn 2 three_closes)).
  { repeat (apply Forall_cons || apply Forall_nil);
      split; intros E; discriminate E. }
  split; [exact H1|]. split; [exact H2|]. split; [exact H3|].
  exact (proj1 (sma_within_window_range three_closes 1 2 H1) H2 H3).
Defined.

Lemma adr20_value_witness :
  (20 <= length flat_quotes_highs)%nat /\
  (20 <= length flat_quotes_lows)%nat /\
  _adr20 (map Some flat_quotes_highs) (map Some flat_quotes_lows) =
  Ok (Some (quantize_half_up
              (Qmean (firstn 20 (day_ranges flat_quotes_highs flat_quotes_lows))
               * 100))).
Proof.
  assert (H1 : (20 <= length flat_quotes_highs)%nat) by (cbn; lia).
  assert (H2 : (20 <= length flat_quotes_lows)%nat) by (cbn; lia).
  split; [exact H1|]. split; [exact H2|].
  exact (proj2 (proj2 adr20_value) flat_quotes_highs flat_quotes_lows H1 H2).
Defined.

Lemma avd20_value_witness :
  (20 <= length flat_quotes_closes)%nat /\
  (20 <= length flat_quotes_volumes)%nat /\
  _avd20 flat_quotes_closes flat_quotes_volumes =
  _avd20 (none_as_zero flat_quotes_closes) flat_quotes_volumes.
Proof.
  assert (H1 : (20 <= length flat_quotes_closes)%nat) by (cbn; lia).
  assert (H2 : (20 <= length flat_quotes_volumes)%nat) by (cbn; lia).
  split; [exact H1|]. split; [exact H2|].
  exact (proj1 (proj2 (avd20_value flat_quotes_closes flat_quotes_volumes)
                  H1 H2)).
Defined.

Lemma atr14_nonnegative_witness :
  length flat_highs = length flat_lows /\
  length flat_lows = length flat_closes /\
  _atr14 (map Fin flat_highs) (map Fin flat_lows) (map Fin flat_closes) =
  Ok (Some (Fin (100 # 100))) /\
  not_negative (Fin (100 # 100)).
Proof.
  assert (H1 : length flat_highs = length flat_lows) by reflexivity.
  assert (H2 : length flat_lows = length flat_closes) by reflexivity.
  assert (H3 : _atr14 (map Fin flat_highs) (map Fin flat_lows)
                 (map Fin flat_closes) = Ok (Some (Fin (100 # 100))))
    by (vm_compute; reflexivity).
  split; [exact H1|]. split; [exact H2|]. split; [exact H3|].
  exact (atr14_nonnegative flat_highs flat_lows flat_closes H1 H2 H3).
Defined.

Lemma volume_ratio_of_equal_volumes_witness :
  (1 <= 3)%nat /\ (Nat.max 2 3 <= length equal_volumes)%nat /\
  Forall (fun x => x = 5%Z) (firstn (Nat.max 2 3) equal_volumes) /\
  5%Z <> 0%Z /\ (Z.of_nat 2 < 2 ^ 53)%Z /\
  _volume_ratio equal_volumes 2 3 = Ok (Some (Fin (200 # 100))).
Proof.
  assert (H1 : (1 <= 3)%nat) by lia.
  assert (H2 : (Nat.max 2 3 <= length equal_volumes)%nat) by (cbn; lia).
  assert (H3 : Forall (fun x => x = 5%Z) (firstn (Nat.max 2 3) equal_volumes))
    by (repeat constructor).
  assert (H4 : 5%Z <> 0%Z) by lia.
  assert (H5 : (Z.of_nat 2 < 2 ^ 53)%Z) by (cbn; lia).
  split; [exact H1|]. split; [exact H2|]. split; [exact H3|].
  split; [exact H4|]. split; [exact H5|].
  exact (@volume_ratio_of_equal_volumes equal_volumes 2 3 5%Z H1 H2 H3 H4 H5).
Defined.

Lemma volume_ratio_nonnegative_witness :
  (1 <= 3)%nat /\ Forall (fun v => (0 <= v)%Z) three_volumes /\
  _volume_ratio three_volumes 1 3 = Ok (Some (Fin (50 # 100))) /\
  not_negative (Fin (50 # 100)).
Proof.
  assert (H1 : (1 <= 3)%nat) by lia.
  assert (H2 : Forall (fun v => (0 <= v)%Z) three_volumes)
    by (repeat constructor; lia).
  assert (H3 : _volume_ratio three_volumes 1 3 = Ok (Some (Fin (50 # 100))))
    by (vm_compute; reflexivity).
  split; [exact H1|]. split; [exact H2|]. split; [exact H3|].
  exact (@volume_ratio_nonnegative three_volumes 1 3 (Fin (50 # 100)) H1 H2 H3).
Defined.

Lemma record_only_from_full_history_witness :
  calculate_for_symbol (logged_history 200) Tickers.AAA 1%Z [] =
  (Ok (Some sample_record), [(Tickers.AAA, 250%nat); (Tickers.AAA, 420%nat)]) /\
  exists rows w1 rows420,
    get_price_history (logged_history 200) Tickers.AAA 250 [] = (Ok rows, w1) /\
    (200 <= length rows)%nat /\
    get_price_history (logged_history 200) Tickers.AAA 420 w1 =
    (Ok rows420, [(Tickers.AAA, 250%nat); (Tickers.AAA, 420%nat)]) /\
    ind_symbol sample_record = Tickers.AAA.
Proof.
  assert (H1 : calculate_for_symbol (logged_history 200) Tickers.AAA 1%Z [] =
               (Ok (Some sample_record),
                [(Tickers.AAA, 250%nat); (Tickers.AAA, 420%nat)]))
    by (vm_compute; reflexivity).
  split; [exact H1|].
  destruct (record_only_from_full_history (logged_history 200) Tickers.AAA
              1%Z [] H1) as [rows [w1 [rows420 [Ha [Hb [Hc [Hd _]]]]]]].
  exists rows, w1, rows420. auto.
Defined.

Lemma driver_without_date_or_symbols_witness :
  no_date [] = (Ok None, []) /\
  process_all_symbols no_date three_symbols (logged_history 200)
    logged_upsert 5 ([], []) = (Ok 0%Z, ([], [])).
Proof.
  assert (H1 : no_date [] = (Ok None, [])) by reflexivity.
  split; [exact H1|].
  exact (proj1 (driver_without_date_or_symbols no_date three_symbols
                  (logged_history 200) logged_upsert 5 [] [])
           (Ok None) [] H1 (or_introl eq_refl)).
Defined.

Lemma driver_counts_records_witness :
  (1 <= 2)%nat /\
  (forall data k0, exists k1,
      logged_upsert data k0 = (Ok (Z.of_nat (length data)), k1)) /\
  get_latest_date fixed_date [] = (Ok (Some 1%Z), []) /\
  get_all_symbols three_symbols [] =
  (Ok [Tickers.AAA; Tickers.BBB; Tickers.CCC], []) /\
  exists recs w3 k',
    collect_records (logged_history 200)
      [Tickers.AAA; Tickers.BBB; Tickers.CCC] 1%Z [] = (Ok recs, w3) /\
    process_all_symbols fixed_date three_symbols (logged_history 200)
      logged_upsert 2 ([], []) = (Ok (Z.of_nat (length recs)), (w3, k')).
Proof.
  assert (H1 : (1 <= 2)%nat) by lia.
  assert (H2 : forall data k0, exists k1,
             logged_upsert data k0 = (Ok (Z.of_nat (length data)), k1))
    by (intros data k0; eexists; reflexivity).
  assert (H3 : get_latest_date fixed_date [] = (Ok (Some 1%Z), []))
    by reflexivity.
  assert (H4 : get_all_symbols three_symbols [] =
               (Ok [Tickers.AAA; Tickers.BBB; Tickers.CCC], []))
    by reflexivity.
  split; [exact H1|]. split; [exact H2|]. split; [exact H3|].
  split; [exact H4|].
  exact (@driver_counts_records _ _ fixed_date three_symbols
           (logged_history 200) logged_upsert 2 [] [] [] [] 1%Z
           [Tickers.AAA; Tickers.BBB; Tickers.CCC] H1 H2 H3 H4).
Defined.

Lemma driver_survives_failed_writes_witness :
  (1 <= 2)%nat /\
  (forall data k0, exists k1,
      failing_upsert data k0 = (Raise MySQLError, k1)) /\
  get_latest_date fixed_date [] = (Ok (Some 1%Z), []) /\
  get_all_symbols three_symbols [] =
  (Ok [Tickers.AAA; Tickers.BBB; Tickers.CCC], []) /\
  exists recs w3 k',
    collect_records (logged_history 200)
      [Tickers.AAA; Tickers.BBB; Tickers.CCC] 1%Z [] = (Ok recs, w3) /\
    process_all_symbols fixed_date three_symbols (logged_history 200)
      failing_upsert 2 ([], []) = (Ok 0%Z, (w3, k')).
Proof.
  assert (H1 : (1 <= 2)%nat) by lia.
  assert (H2 : forall data k0, exists k1,
             failing_upsert data k0 = (Raise MySQLError, k1))
    by (intros data k0; eexists; reflexivity).
  assert (H3 : get_latest_date fixed_date [] = (Ok (Some 1%Z), []))
    by reflexivity.
  assert (H4 : get_all_symbols three_symbols [] =
               (Ok [Tickers.AAA; Tickers.BBB; Tickers.CCC], []))
    by reflexivity.
  split; [exact H1|]. split; [exact H2|]. split; [exact H3|].
  split; [exact H4|].
  exact (@driver_survives_failed_writes _ _ fixed_date three_symbols
           (logged_history 200) failing_upsert 2 [] [] [] [] 1%Z
           [Tickers.AAA; Tickers.BBB; Tickers.CCC] H1 H2 H3 H4).
Defined.


Lemma driver_writes_full_batches_witness :
  (1 <= 2)%nat /\
  get_latest_date fixed_date [] = (Ok (Some 1%Z), []) /\
  get_all_symbols three_symbols [] =
  (Ok [Tickers.AAA; Tickers.BBB; Tickers.CCC], []) /\
  exists recs w3 written,
    collect_records (logged_history 200)
      [Tickers.AAA; Tickers.BBB; Tickers.CCC] 1%Z [] = (Ok recs, w3) /\
    process_all_symbols fixed_date three_symbols (logged_history 200)
      logged_upsert 2 ([], [])
    = (Ok (Z.of_nat (length recs)), (w3, [] ++ written)) /\
    concat written = recs.
Proof.
  assert (H1 : (1 <= 2)%nat) by lia.
  assert (H2 : get_latest_date fixed_date [] = (Ok (Some 1%Z), []))
    by reflexivity.
  assert (H3 : get_all_symbols three_symbols [] =
               (Ok [Tickers.AAA; Tickers.BBB; Tickers.CCC], []))
    by reflexivity.
  split; [exact H1|]. split; [exact H2|]. split; [exact H3|].
  destruct (@driver_writes_full_batches _ fixed_date three_symbols
              (logged_history 200) 2 [] [] [] [] 1%Z
              [Tickers.AAA; Tickers.BBB; Tickers.CCC] H1 H2 H3)
    as [recs [w3 [written [Ha [Hb [Hc _]]]]]].
  exists recs, w3, written. auto.
Defined.
